(** * Word-frequency MapReduce pipeline ([mapreduce_url_topwords.py])

    A shallow embedding of the pure core of the script: the chunker, the
    whitespace mapper, shuffle and reduce over insertion-ordered dictionaries,
    the normalising post-pass and the top-N selection, followed by the
    properties of the pipeline.

    Python values are modelled as follows.
    - [str] is a sequence of Unicode code points ([list N]); [len] and slicing
      count code points, as in Python 3.
    - [int] is [Z]; [//] on the operands used here is [Z.div].
    - [dict] / [Counter] are association lists in insertion order with unique
      keys: assigning to an existing key keeps its position, a new key goes
      last.
    - an exception is a value of [exn], carried by [result]. *)

From Stdlib Require Import Ascii String.
From stdpp Require Import base numbers list sorting.

Local Open Scope Z_scope.

(** ** Python strings *)

Definition char := N.
Definition str := list char.

Definition str_eqb (a b : str) : bool := bool_decide (a = b).

Definition len {A} (s : list A) : Z := Z.of_nat (length s).

(** [s[i:j]] for non-negative [i] and [j]; indices beyond the end are
    clamped, an empty range gives the empty string. *)
Definition slice {A} (s : list A) (i j : Z) : list A :=
  take (Z.to_nat j - Z.to_nat i)%nat (drop (Z.to_nat i) s).

(** An ASCII literal as a Python string. *)
Definition lit (s : String.string) : str :=
  map N_of_ascii (list_ascii_of_string s).

(** ** [range(start, stop, step)] for a positive step *)

Definition range_len (start stop step : Z) : Z :=
  if start <? stop then (stop - start - 1) / step + 1 else 0.

Definition range (start stop step : Z) : list Z :=
  map (fun i => start + Z.of_nat i * step)
      (seq 0 (Z.to_nat (range_len start stop step))).

(** ** Exceptions *)

Inductive exn := ValueError.

Inductive result (A : Type) :=
| Ok (a : A)
| Raise (e : exn).
Arguments Ok {A} a.
Arguments Raise {A} e.

(** ** The chunker *)

Definition chunk_text (text : str) (chunks : Z) : list str :=
  if chunks <=? 1 then [text]
  else
    let n := len text in
    let step := Z.max 1 (n / chunks) in
    map (fun i => slice text i (Z.min n (i + step))) (range 0 n step).

(** The stride used by [chunk_text] when [chunks > 1]. *)
Definition chunk_step (text : str) (chunks : Z) : Z :=
  Z.max 1 (len text / chunks).

(** ** Character classes *)

Definition in_range (lo hi c : N) : bool := ((lo <=? c) && (c <=? hi))%N.

(** [str.isspace] on one code point; [str.split()] separates on these. *)
Definition isspace (c : char) : bool :=
  in_range 0x09 0x0D c || in_range 0x1C 0x20 c ||
  (c =? 0x85)%N || (c =? 0xA0)%N || (c =? 0x1680)%N ||
  in_range 0x2000 0x200A c || (c =? 0x2028)%N || (c =? 0x2029)%N ||
  (c =? 0x202F)%N || (c =? 0x205F)%N || (c =? 0x3000)%N.

(** The character class of [WORD_RE]: a-z, A-Z, U+0430-U+044F, U+0410-U+042F,
    U+0451, U+0401, U+0456, U+0406, U+0457, U+0407, U+0454, U+0404, 0-9 and
    the apostrophe. *)
Definition is_word_char (c : char) : bool :=
  in_range 0x61 0x7A c || in_range 0x41 0x5A c ||
  in_range 0x430 0x44F c || in_range 0x410 0x42F c ||
  (c =? 0x451)%N || (c =? 0x401)%N || (c =? 0x456)%N || (c =? 0x406)%N ||
  (c =? 0x457)%N || (c =? 0x407)%N || (c =? 0x454)%N || (c =? 0x404)%N ||
  in_range 0x30 0x39 c || (c =? 0x27)%N.

(** The upper-case letters of the class. *)
Definition is_upper (c : char) : bool :=
  in_range 0x41 0x5A c || in_range 0x410 0x42F c ||
  (c =? 0x401)%N || (c =? 0x406)%N || (c =? 0x407)%N || (c =? 0x404)%N.

(** [str.lower] on one code point. The script lower-cases matches of
    [WORD_RE] only; on that class the mapping is the one below, one code point
    to one code point. Other code points are left alone. *)
Definition lower_char (c : char) : char :=
  if in_range 0x41 0x5A c then (c + 0x20)%N
  else if in_range 0x410 0x42F c then (c + 0x20)%N
  else if (c =? 0x401)%N || (c =? 0x406)%N || (c =? 0x407)%N || (c =? 0x404)%N
       then (c + 0x50)%N
  else c.

Definition lower (s : str) : str := map lower_char s.

(** ** Maximal runs: the scanning loop behind [split()] and [finditer] *)

(** [cur] holds the run being read, last character first. *)
Definition flush (cur : str) : list str :=
  match cur with
  | [] => []
  | _ => [rev cur]
  end.

Fixpoint runs_from (p : char -> bool) (cur : str) (s : str) : list str :=
  match s with
  | [] => flush cur
  | c :: s' =>
      if p c then runs_from p (c :: cur) s'
      else flush cur ++ runs_from p [] s'
  end.

Definition runs (p : char -> bool) (s : str) : list str := runs_from p [] s.

(** [text.split()]: the maximal runs of non-whitespace. *)
Definition split (text : str) : list str := runs (fun c => negb (isspace c)) text.

(** [WORD_RE.finditer(text)], each match as its [group(0)]. *)
Definition finditer_WORD_RE (text : str) : list str := runs is_word_char text.

Definition DEFAULT_STOPWORDS : list str :=
  [ lit "the"; lit "and"; lit "a"; lit "an"; lit "of"; lit "to"; lit "in";
    lit "on"; lit "is"; lit "it"; lit "that"; lit "this";
    [1110]; [1081]; [1090; 1072]; [1072]; [1072; 1083; 1077];
    [1072; 1073; 1086]; [1097; 1086]; [1094; 1077]; [1076; 1086];
    [1074; 1110; 1076]; [1079; 1072]; [1085; 1072]; [1091]; [1074];
    [1079]; [1110; 1079]; [1079; 1110]; [1087; 1086]; [1103; 1082];
    [1085; 1077]; [1108] ]%N.

Definition tokenize (text : str) : list str :=
  map lower (finditer_WORD_RE text).

(** ** Insertion-ordered dictionaries *)

Definition dict (V : Type) := list (str * V).

Fixpoint dict_get {V} (d : dict V) (k : str) : option V :=
  match d with
  | [] => None
  | (k', v) :: d' => if str_eqb k' k then Some v else dict_get d' k
  end.

(** [d[k] = v]: an existing key keeps its place, a new key is added last. *)
Fixpoint dict_set {V} (d : dict V) (k : str) (v : V) : dict V :=
  match d with
  | [] => [(k, v)]
  | (k', v') :: d' =>
      if str_eqb k' k then (k', v) :: d' else (k', v') :: dict_set d' k v
  end.

Definition keys {V} (d : dict V) : list str := map fst d.
Definition values {V} (d : dict V) : list V := map snd d.

(** Python's [sum] over integers. *)
Definition sum (l : list Z) : Z := foldl Z.add 0 l.

(** ** Map, shuffle, reduce *)

Definition map_function (text : str) : list (str * Z) :=
  map (fun word => (word, 1)) (split text).

(** [shuffled[key].append(value)] on a [defaultdict(list)]. *)
Definition shuffle_step (shuffled : dict (list Z)) (kv : str * Z) : dict (list Z) :=
  dict_set shuffled kv.1 (default [] (dict_get shuffled kv.1) ++ [kv.2]).

Definition shuffle_function (mapped_values : list (str * Z)) : dict (list Z) :=
  foldl shuffle_step [] mapped_values.

Definition reduce_function (shuffled_values : dict (list Z)) : dict Z :=
  foldl (fun reduced kv => dict_set reduced kv.1 (sum kv.2)) [] shuffled_values.

(** ** The normalising post-pass *)

Definition Counter := dict Z.

(** [c[k]] on a [Counter]: a missing key reads as 0. *)
Definition counter_get (c : Counter) (k : str) : Z := default 0 (dict_get c k).

(** [c[k] += cnt]. *)
Definition counter_add (c : Counter) (k : str) (cnt : Z) : Counter :=
  dict_set c k (counter_get c k + cnt).

Definition str_in (t : str) (s : list str) : bool := existsb (str_eqb t) s.

Definition stop_set (use_stopwords : bool) : list str :=
  if use_stopwords then DEFAULT_STOPWORDS else [].

(** The test of the inner loop: [len(t) >= min_len and t not in stop]. *)
Definition keeps (min_len : Z) (stop : list str) (t : str) : bool :=
  (min_len <=? len t) && negb (str_in t stop).

Definition normalize_word (min_len : Z) (stop : list str)
    (normalized : Counter) (wc : str * Z) : Counter :=
  foldl (fun normalized t =>
           if keeps min_len stop t then counter_add normalized t wc.2
           else normalized)
        normalized (tokenize wc.1).

Definition normalize (reduced : dict Z) (min_len : Z) (use_stopwords : bool) : Counter :=
  foldl (normalize_word min_len (stop_set use_stopwords)) [] reduced.

(** ** The thread pool *)

(** [ThreadPoolExecutor(max_workers=n)] rejects a pool without workers. *)
Definition ThreadPoolExecutor (max_workers : Z) : result Z :=
  if max_workers <=? 0 then Raise ValueError else Ok max_workers.

(** [pool.map(f, tasks)] yields the results in the order of submission. *)
Definition pool_map {A B} (f : A -> B) (tasks : list A) : list B := map f tasks.

(** A finer model of the pool, used to show that the order in which the
    worker threads finish is not observable. Every submitted task has a
    future; [schedule] lists the task indices in the order of completion;
    [pool.map] then reads the futures by index. A future that never completes
    would block the caller for ever: [None]. *)
Definition complete {A B} (f : A -> B) (tasks : list A)
    (futures : list (option B)) (i : nat) : list (option B) :=
  match tasks !! i with
  | Some x => <[i := Some (f x)]> futures
  | None => futures
  end.

Definition run_workers {A B} (f : A -> B) (tasks : list A) (schedule : list nat)
    : list (option B) :=
  foldl (complete f tasks) (replicate (length tasks) None) schedule.

Fixpoint gather {B} (futures : list (option B)) : option (list B) :=
  match futures with
  | [] => Some []
  | None :: _ => None
  | Some r :: rest =>
      match gather rest with
      | Some rs => Some (r :: rs)
      | None => None
      end
  end.

Definition pool_map_scheduled {A B} (f : A -> B) (tasks : list A)
    (schedule : list nat) : option (list B) :=
  gather (run_workers f tasks schedule).

(** ** The pipeline *)

(** [mapped_all] after the parallel map. *)
Definition mapped_all (text : str) (workers : Z) : list (str * Z) :=
  concat (pool_map map_function (chunk_text text workers)).

(** [reduced], the table of raw-token counts. *)
Definition merged_table (text : str) (workers : Z) : dict Z :=
  reduce_function (shuffle_function (mapped_all text workers)).

Definition map_reduce_parallel (text : str) (workers min_len : Z)
    (use_stopwords : bool) : result Counter :=
  let parts := chunk_text text workers in
  match ThreadPoolExecutor workers with
  | Raise e => Raise e
  | Ok _ =>
      let mapped_all := concat (pool_map map_function parts) in
      let shuffled := shuffle_function mapped_all in
      let reduced := reduce_function shuffled in
      Ok (normalize reduced min_len use_stopwords)
  end.

(** The same run with the completion order of the workers made explicit. *)
Definition map_reduce_scheduled (schedule : list nat) (text : str)
    (workers min_len : Z) (use_stopwords : bool) : option (result Counter) :=
  let parts := chunk_text text workers in
  match ThreadPoolExecutor workers with
  | Raise e => Some (Raise e)
  | Ok _ =>
      match pool_map_scheduled map_function parts schedule with
      | None => None
      | Some mapped =>
          Some (Ok (normalize (reduce_function (shuffle_function (concat mapped)))
                              min_len use_stopwords))
      end
  end.

(** ** Top-N selection *)

(** [Counter.most_common(n)] is [heapq.nlargest(n, items, key=count)], that
    is the first [n] items of a stable sort by descending count; for a
    negative [n] it is empty. *)
Fixpoint insert_desc (x : str * Z) (l : list (str * Z)) : list (str * Z) :=
  match l with
  | [] => [x]
  | y :: l' => if x.2 <? y.2 then y :: insert_desc x l' else x :: l
  end.

Definition sorted_desc (items : list (str * Z)) : list (str * Z) :=
  foldr insert_desc [] items.

Definition most_common (freq : Counter) (n : Z) : list (str * Z) :=
  take (Z.to_nat n) (sorted_desc freq).

(** What [main] computes before printing and drawing: the table and the
    [top] list of [visualize_top_words]. *)
Definition run_pipeline (text : str) (workers min_len : Z) (use_stopwords : bool)
    (top_n : Z) : result (Counter * list (str * Z)) :=
  match map_reduce_parallel text workers min_len use_stopwords with
  | Raise e => Raise e
  | Ok freq => Ok (freq, most_common freq top_n)
  end.

Definition run_pipeline_scheduled (schedule : list nat) (text : str)
    (workers min_len : Z) (use_stopwords : bool) (top_n : Z)
    : option (result (Counter * list (str * Z))) :=
  match map_reduce_scheduled schedule text workers min_len use_stopwords with
  | None => None
  | Some (Raise e) => Some (Raise e)
  | Some (Ok freq) => Some (Ok (freq, most_common freq top_n))
  end.

(** Adjacent chunks meet at whitespace: the left one ends with a whitespace
    character or the right one starts with one. *)
Definition ends_with_space (s : str) : bool :=
  match rev s with
  | c :: _ => isspace c
  | [] => false
  end.

Definition starts_with_space (s : str) : bool :=
  match s with
  | c :: _ => isspace c
  | [] => false
  end.

Fixpoint boundaries_on_whitespace (parts : list str) : bool :=
  match parts with
  | a :: (b :: _) as rest =>
      (ends_with_space a || starts_with_space b) && boundaries_on_whitespace rest
  | _ => true
  end.

(** The offset at which chunk [j] starts: the total length of the chunks
    before it. *)
Definition chunk_start (text : str) (chunks : Z) (j : nat) : Z :=
  len (concat (take j (chunk_text text chunks))).

(** Every one of the [n] submitted tasks is completed by the schedule. *)
Definition all_complete (n : nat) (schedule : list nat) : bool :=
  forallb (fun i => existsb (Nat.eqb i) schedule) (seq 0 n).

(** The predicates on a key of the normalised table. *)
Definition is_lower_word (t : str) : bool :=
  forallb (fun c => is_word_char c && negb (is_upper c)) t.

(** The number of tokens of a raw word that pass the filter. *)
Definition kept_tokens (min_len : Z) (stop : list str) (word : str) : Z :=
  len (filter (fun t => keeps min_len stop t = true) (tokenize word)).

(** Every raw word of the table holds at most one token. *)
Definition single_token_keys (reduced : dict Z) : bool :=
  forallb (fun wc => len (tokenize wc.1) <=? 1) reduced.

(** A key of the normalised table: non-empty, over the class of [WORD_RE]
    without upper-case letters, and fixed by [lower]. *)
Definition clean_token (t : str) : Prop :=
  t <> [] /\ is_lower_word t = true /\ lower t = t.

(** An entry of the normalised table that the filter lets through, with a
    positive count. *)
Definition good_entry (min_len : Z) (stop : list str) (kv : str * Z) : Prop :=
  clean_token kv.1 /\ keeps min_len stop kv.1 = true /\ 1 <= kv.2.

(** The chunk that starts at offset [i], for a stride [step]. *)
Definition chunk_piece (text : str) (step i : Z) : str :=
  slice text i (Z.min (len text) (i + step)).

(** Descending order of counts, and the entries with a given count. *)
Definition count_ge (a b : str * Z) : Prop := b.2 <= a.2.

Definition with_count (v : Z) (l : list (str * Z)) : list (str * Z) :=
  filter (fun kv => kv.2 = v) l.

(** ** The rest of the script *)

(** How often [t] occurs in a list of strings. *)
Definition occurrences (t : str) (l : list str) : Z :=
  len (filter (fun x => x = t) l).

(** The raw words seen by all the mappers together, in the order in which
    [mapped_all] lists them. *)
Definition raw_words (text : str) (workers : Z) : list str :=
  concat (map split (chunk_text text workers)).

(** Counting pairs one at a time into a table, [table[k] += v]. *)
Definition count_pairs (mapped : list (str * Z)) : Counter :=
  foldl (fun c kv => counter_add c kv.1 kv.2) [] mapped.

(** The first occurrences of the elements of a list, in order. *)
Fixpoint first_seen (seen : list str) (l : list str) : list str :=
  match l with
  | [] => []
  | x :: l' =>
      if str_in x seen then first_seen seen l'
      else x :: first_seen (x :: seen) l'
  end.

(** [visualize_top_words] up to the drawing: [None] is the early return after
    the warning that there is nothing to show, [Some (words, counts)] are the
    labels and the bar lengths of the chart, from [zip( *top)]. *)
Definition visualize_top_words (freq : Counter) (top_n : Z)
    : option (list str * list Z) :=
  match most_common freq top_n with
  | [] => None
  | top => Some (map fst top, map snd top)
  end.

(** The two numbers [main] prints: [len(freq)] and [sum(freq.values())]. *)
Definition summary (freq : Counter) : Z * Z := (len freq, sum (values freq)).

(** The values paired with the key [k], in order. *)
Definition values_of (k : str) (mapped : list (str * Z)) : list Z :=
  map snd (filter (fun kv => kv.1 = k) mapped).

(** Each list of values replaced by its sum. *)
Definition sum_lists (d : dict (list Z)) : dict Z :=
  map (fun kv => (kv.1, sum kv.2)) d.

(** The tokens of a raw word that pass the test of the normaliser. *)
Definition kept (min_len : Z) (stop : list str) (word : str) : list str :=
  List.filter (keeps min_len stop) (tokenize word).

(** The additions the normaliser makes, in order: for each pair (word,
    count) and each kept token of the word, the pair (token, count). *)
Definition token_pairs (min_len : Z) (stop : list str)
    (pairs : list (str * Z)) : list (str * Z) :=
  concat (map (fun wc => map (fun t => (t, wc.2)) (kept min_len stop wc.1)) pairs).

(** The occurrences of the pair list weighted by [g]: the sum of
    [count * g word]. *)
Definition weighted (g : str -> Z) (pairs : list (str * Z)) : Z :=
  sum (map (fun wc => wc.2 * g wc.1) pairs).

(** One occurrence each. *)
Definition ones (words : list str) : list (str * Z) :=
  map (fun word => (word, 1)) words.

(** ** [async_file_sorter.py]: the tally of [read_folder] *)

(** What [asyncio.gather(..., return_exceptions=True)] can hand back for one
    copy task: the pair (src, dst) that [copy_file] returns on success;
    [None], which [copy_file] returns after logging a failure; an instance
    of [Exception]; or another object (a [BaseException] such as
    [CancelledError], which is neither [None] nor an [Exception]). *)
Inductive copy_result (path : Type) :=
| Copied (src dst : path)
| ResNone
| ResException
| ResOther.
Arguments Copied {path} src dst.
Arguments ResNone {path}.
Arguments ResException {path}.
Arguments ResOther {path}.

(** The counting loop of [read_folder], on the pair [(ok, err)]. *)
Definition count_step {path} (acc : Z * Z) (res : copy_result path) : Z * Z :=
  match res with
  | ResException => (acc.1, acc.2 + 1)
  | ResNone => (acc.1, acc.2 + 1)
  | _ => (acc.1 + 1, acc.2)
  end.

Definition count_results {path} (results : list (copy_result path)) : Z * Z :=
  foldl count_step (0, 0) results.

(** The exit status [amain] returns after copying: [0 if err == 0 else 1]. *)
Definition exit_status (counts : Z * Z) : Z :=
  if counts.2 =? 0 then 0 else 1.

Definition is_error {path} (res : copy_result path) : bool :=
  match res with
  | ResException | ResNone => true
  | _ => false
  end.

(** * Properties *)

(** ** Slices and ranges *)

Lemma len_nonneg {A} (s : list A) : 0 <= len s.
Proof. unfold len. lia. Qed.

Lemma len_app {A} (s t : list A) : len (s ++ t) = len s + len t.
Proof. unfold len. rewrite length_app. lia. Qed.

Lemma slice_all {A} (s : list A) : slice s 0 (len s) = s.
Proof.
  unfold slice, len. rewrite Nat2Z.id. simpl. rewrite Nat.sub_0_r.
  apply firstn_all.
Qed.

Lemma range_len_bounds stop step :
  0 < step -> 0 < stop ->
  stop <= range_len 0 stop step * step /\
  (range_len 0 stop step - 1) * step < stop /\
  0 < range_len 0 stop step.
Proof.
  intros Hstep Hstop. unfold range_len.
  destruct (Z.ltb_spec 0 stop) as [_|?]; [|lia].
  replace (stop - 0 - 1) with (stop - 1) by lia.
  pose proof (Z.div_mod (stop - 1) step ltac:(lia)) as Hdm.
  pose proof (Z.mod_pos_bound (stop - 1) step Hstep) as Hmod.
  pose proof (Z.div_pos (stop - 1) step ltac:(lia) Hstep) as Hq.
  nia.
Qed.

Lemma range_len_empty stop step : stop <= 0 -> range_len 0 stop step = 0.
Proof. intros H. unfold range_len. destruct (Z.ltb_spec 0 stop); lia. Qed.

(** ** The chunker *)

Section Chunks.
Variable text : str.
Variable step : Z.
Hypothesis step_pos : 0 < step.

Local Abbreviation piece := (chunk_piece text step).
Local Abbreviation at_index := (fun i : nat => 0 + Z.of_nat i * step).

Lemma pieces_from (m a : nat) :
  len text <= Z.of_nat (a + m) * step ->
  ((0 < m)%nat -> Z.of_nat (a + m - 1) * step < len text) ->
  concat (map piece (map at_index (seq a m))) =
  drop (Z.to_nat (Z.of_nat a * step)) text.
Proof using step_pos.
  revert a. induction m as [|m IH]; intros a Hcover Hlast.
  - simpl. rewrite drop_ge; [done|].
    unfold len in Hcover. rewrite Nat.add_0_r in Hcover. lia.
  - cbn [seq map concat]. rewrite IH.
    + unfold chunk_piece, slice, len in *.
      assert (Ha : Z.of_nat a * step < Z.of_nat (length text)).
      { specialize (Hlast ltac:(lia)). nia. }
      set (o := Z.to_nat (Z.of_nat a * step)).
      replace (Z.to_nat (0 + Z.of_nat a * step)) with o by (subst o; lia).
      replace (Z.to_nat (Z.of_nat (S a) * step)) with (o + Z.to_nat step)%nat
        by (subst o; nia).
      destruct (Z.le_gt_cases (Z.of_nat a * step + step) (Z.of_nat (length text)))
        as [Hin|Hout].
      * rewrite Z.min_r by lia.
        replace (Z.to_nat (0 + Z.of_nat a * step + step) - o)%nat
          with (Z.to_nat step) by (subst o; lia).
        rewrite <- drop_drop. apply take_drop.
      * rewrite Z.min_l by lia. rewrite Nat2Z.id.
        rewrite (drop_ge text (o + Z.to_nat step)) by (subst o; lia).
        rewrite app_nil_r. apply take_ge. rewrite length_drop. lia.
    + replace (S a + m)%nat with (a + S m)%nat by lia. exact Hcover.
    + intros Hm. specialize (Hlast ltac:(lia)).
      replace (S a + m - 1)%nat with (a + S m - 1)%nat by lia. exact Hlast.
Qed.

Lemma pieces_concat :
  concat (map piece (range 0 (len text) step)) = text.
Proof using step_pos.
  unfold range.
  destruct (Z.le_gt_cases (len text) 0) as [Hz|Hpos].
  - rewrite range_len_empty by done. simpl.
    pose proof (len_nonneg text). destruct text; [done|]. unfold len in *.
    simpl in *. lia.
  - destruct (range_len_bounds (len text) step step_pos ltac:(lia))
      as (Hc & Hl & Hp).
    rewrite pieces_from.
    + done.
    + simpl. rewrite Z2Nat.id by lia. exact Hc.
    + intros _.
      replace (Z.of_nat (0 + Z.to_nat (range_len 0 (len text) step) - 1))
        with (range_len 0 (len text) step - 1) by lia.
      exact Hl.
Qed.

Lemma pieces_count :
  len (map piece (range 0 (len text) step)) = range_len 0 (len text) step.
Proof using step_pos.
  unfold len, range. rewrite !length_map, length_seq.
  unfold range_len. destruct (Z.ltb_spec 0 (Z.of_nat (length text))); [|lia].
  pose proof (Z.div_pos (Z.of_nat (length text) - 0 - 1) step ltac:(lia) step_pos).
  lia.
Qed.
End Chunks.

Lemma chunk_step_pos text chunks : 0 < chunk_step text chunks.
Proof. unfold chunk_step. lia. Qed.

Lemma chunk_text_concat text chunks : concat (chunk_text text chunks) = text.
Proof.
  unfold chunk_text. destruct (chunks <=? 1).
  - simpl. apply app_nil_r.
  - apply pieces_concat. lia.
Qed.

(** The number of chunks for [chunks > 1]: the length of the range, that is
    the text length divided by the stride, rounded up. *)
Lemma chunk_text_count text chunks :
  1 < chunks ->
  len (chunk_text text chunks) = range_len 0 (len text) (chunk_step text chunks).
Proof.
  intros Hk. unfold chunk_text.
  destruct (Z.leb_spec chunks 1); [lia|].
  apply (pieces_count text (chunk_step text chunks) (chunk_step_pos _ _)).
Qed.

(** In a list of pieces, each piece is the slice of the whole that starts
    where the pieces before it end. *)
Lemma concat_piece_slice {A} (parts : list (list A)) (j : nat) (c : list A) :
  parts !! j = Some c ->
  c = slice (concat parts) (len (concat (take j parts)))
                           (len (concat (take j parts)) + len c).
Proof.
  intros Hj. rewrite <- (take_drop_middle parts j c Hj) at 1.
  rewrite concat_app. cbn [concat].
  unfold slice, len. rewrite Nat2Z.id.
  rewrite drop_app_length.
  replace (Z.to_nat _ - _)%nat with (length c) by lia.
  rewrite take_app_length. done.
Qed.

(** C4: the chunks are contiguous, pairwise disjoint slices of the text, each
    one starting where the previous one ends, and their concatenation in
    order is the text. *)
Theorem chunk_text_partition (text : str) (chunks : Z) :
  concat (chunk_text text chunks) = text /\
  chunk_start text chunks 0 = 0 /\
  forall (j : nat) (c : str),
    chunk_text text chunks !! j = Some c ->
    c = slice text (chunk_start text chunks j) (chunk_start text chunks j + len c) /\
    chunk_start text chunks (S j) = chunk_start text chunks j + len c /\
    chunk_start text chunks j + len c <= len text.
Proof.
  split; [apply chunk_text_concat|]. split; [done|].
  intros j c Hj. unfold chunk_start.
  pose proof (concat_piece_slice _ _ _ Hj) as Hs.
  rewrite chunk_text_concat in Hs. split; [exact Hs|].
  rewrite (take_S_r _ _ _ Hj), concat_app, len_app. cbn [concat].
  rewrite app_nil_r. split; [done|].
  pose proof (f_equal len (chunk_text_concat text chunks)) as Hlen.
  set (cs := chunk_text text chunks) in *.
  assert (Hcs : concat cs = concat (take j cs) ++ c ++ concat (drop (S j) cs)).
  { rewrite <- (take_drop_middle cs j c Hj) at 1. by rewrite concat_app. }
  rewrite Hcs, !len_app in Hlen.
  pose proof (len_nonneg (concat (drop (S j) cs))). lia.
Qed.

(** C2: on a text of ten characters and three requested chunks the stride is
    3 and the range 0, 3, 6, 9 yields four chunks; the remainder is a chunk of
    its own. *)
Theorem chunk_text_ten_by_three :
  chunk_text (lit "abcdefghij") 3 = [lit "abc"; lit "def"; lit "ghi"; lit "j"] /\
  len (chunk_text (lit "abcdefghij") 3) = 4.
Proof. split; reflexivity. Qed.

(** ** Runs and [split] *)

Lemma runs_from_sep p cur a c b :
  p c = false ->
  runs_from p cur (a ++ c :: b) = runs_from p cur a ++ runs_from p [] b.
Proof.
  intros Hc. revert cur. induction a as [|x a IH]; intros cur; simpl.
  - rewrite Hc. done.
  - destruct (p x); [apply IH|]. rewrite IH. by rewrite app_assoc.
Qed.

Lemma runs_skip_sep p c b : p c = false -> runs p (c :: b) = runs p b.
Proof. intros Hc. unfold runs. simpl. rewrite Hc. done. Qed.

Lemma ends_with_space_inv a :
  ends_with_space a = true -> exists a' c, a = a' ++ [c] /\ isspace c = true.
Proof.
  unfold ends_with_space. destruct (rev a) as [|c r] eqn:Hr; [done|].
  intros Hc. exists (rev r), c. split; [|done].
  rewrite <- (rev_involutive a), Hr. done.
Qed.

Lemma split_app a b :
  ends_with_space a || starts_with_space b = true ->
  split (a ++ b) = split a ++ split b.
Proof.
  intros H. apply orb_true_iff in H as [Ha|Hb].
  - apply ends_with_space_inv in Ha as (a' & c & -> & Hc).
    unfold split, runs. rewrite <- app_assoc. cbn [app].
    rewrite !runs_from_sep by (by rewrite Hc). simpl. by rewrite app_nil_r.
  - destruct b as [|c b]; [done|]. simpl in Hb.
    unfold split. rewrite (runs_skip_sep _ c b) by (by rewrite Hb).
    unfold runs. apply runs_from_sep. by rewrite Hb.
Qed.

Lemma split_concat parts :
  boundaries_on_whitespace parts = true ->
  concat (map split parts) = split (concat parts).
Proof.
  induction parts as [|a [|b rest] IH]; intros H.
  - done.
  - simpl. by rewrite !app_nil_r.
  - cbn [boundaries_on_whitespace] in H. apply andb_true_iff in H as [Hab Hrest].
    cbn [map concat] in *. rewrite (IH Hrest).
    symmetry. apply split_app.
    apply orb_true_iff in Hab as [Ha|Hb]; [by rewrite Ha|].
    destruct b; [done|]. simpl in *. rewrite Hb. apply orb_true_r.
Qed.

Lemma concat_map_function parts :
  concat (map map_function parts) =
  map (fun word => (word, 1)) (concat (map split parts)).
Proof.
  induction parts as [|a parts IH]; [done|].
  cbn [map concat]. rewrite map_app, IH. done.
Qed.

(** With every chunk boundary on whitespace the parallel map yields what a
    single pass over the text yields. *)
Lemma mapped_all_aligned text workers :
  boundaries_on_whitespace (chunk_text text workers) = true ->
  mapped_all text workers = map_function text.
Proof.
  intros H. unfold mapped_all, pool_map.
  rewrite concat_map_function, (split_concat _ H), chunk_text_concat. done.
Qed.

Lemma map_reduce_parallel_ok text workers min_len use_stopwords :
  1 <= workers ->
  map_reduce_parallel text workers min_len use_stopwords =
  Ok (normalize (merged_table text workers) min_len use_stopwords).
Proof.
  intros Hw. unfold map_reduce_parallel, ThreadPoolExecutor.
  destruct (Z.leb_spec workers 0); [lia|]. done.
Qed.

Lemma map_reduce_parallel_raise text workers min_len use_stopwords :
  workers <= 0 ->
  map_reduce_parallel text workers min_len use_stopwords = Raise ValueError.
Proof.
  intros Hw. unfold map_reduce_parallel, ThreadPoolExecutor.
  destruct (Z.leb_spec workers 0); [done|lia].
Qed.

(** C3: two runs over the same text with worker counts [w1] and [w2], both of
    whose chunkings put every boundary on whitespace, return the same
    table. *)
Theorem worker_count_independence (text : str) (w1 w2 min_len : Z)
    (use_stopwords : bool) :
  1 <= w1 -> 1 <= w2 ->
  boundaries_on_whitespace (chunk_text text w1) = true ->
  boundaries_on_whitespace (chunk_text text w2) = true ->
  exists freq,
    map_reduce_parallel text w1 min_len use_stopwords = Ok freq /\
    map_reduce_parallel text w2 min_len use_stopwords = Ok freq.
Proof.
  intros H1 H2 Hb1 Hb2.
  exists (normalize (reduce_function (shuffle_function (map_function text)))
                    min_len use_stopwords).
  rewrite !map_reduce_parallel_ok by done. unfold merged_table.
  rewrite !mapped_all_aligned by done. done.
Qed.

Lemma worker_count_independence_witness :
  exists freq,
    map_reduce_parallel (lit "a b a") 2 1 true = Ok freq /\
    map_reduce_parallel (lit "a b a") 5 1 true = Ok freq.
Proof.
  apply (worker_count_independence (lit "a b a") 2 5 1 true);
    [lia | lia | reflexivity | reflexivity].
Defined.

(** C10 (as amended): a chunk count of at most 1 gives the whole text as the
    only chunk; with [workers = 1] the run is the single-chunk sequential
    run, and with [workers <= 0] the pool constructor raises [ValueError]. *)
Theorem single_chunk_run (text : str) (workers min_len : Z) (use_stopwords : bool) :
  workers <= 1 ->
  chunk_text text workers = [text] /\
  map_reduce_parallel text workers min_len use_stopwords =
    if workers <=? 0 then Raise ValueError
    else Ok (normalize (reduce_function (shuffle_function (map_function text)))
                       min_len use_stopwords).
Proof.
  intros Hw.
  assert (Hc : chunk_text text workers = [text]).
  { unfold chunk_text. destruct (Z.leb_spec workers 1); [done|lia]. }
  split; [exact Hc|].
  destruct (Z.leb_spec workers 0).
  - by apply map_reduce_parallel_raise.
  - rewrite map_reduce_parallel_ok by lia.
    unfold merged_table, mapped_all, pool_map. rewrite Hc. simpl.
    by rewrite app_nil_r.
Qed.

Lemma single_chunk_run_witness :
  chunk_text (lit "to be") 1 = [lit "to be"] /\
  map_reduce_parallel (lit "to be") 1 1 false =
    Ok (normalize (reduce_function (shuffle_function (map_function (lit "to be"))))
                  1 false).
Proof. apply (single_chunk_run (lit "to be") 1 1 false). lia. Defined.

(** C10 as stated fails: with [workers = 0] the chunker returns the single
    chunk, and the run raises instead of returning a table. *)
Lemma zero_workers_raises :
  chunk_text (lit "to be") 0 = [lit "to be"] /\
  ~ exists freq, map_reduce_parallel (lit "to be") 0 1 false = Ok freq.
Proof. split; [reflexivity|]. intros [freq H]. discriminate H. Qed.

(** C5: the empty text, with at least one worker, gives the empty table and
    the empty top-N list, and no exception. *)
Theorem empty_input (workers min_len : Z) (use_stopwords : bool) (top_n : Z) :
  1 <= workers ->
  run_pipeline [] workers min_len use_stopwords top_n = Ok ([], []).
Proof.
  intros Hw. unfold run_pipeline. rewrite map_reduce_parallel_ok by done.
  assert (Hm : merged_table [] workers = []).
  { unfold merged_table, mapped_all, chunk_text.
    destruct (workers <=? 1); [done|].
    unfold range. rewrite range_len_empty by done. done. }
  rewrite Hm. unfold most_common. simpl. by rewrite take_nil.
Qed.

Lemma empty_input_witness : run_pipeline [] 8 2 true 10 = Ok ([], []).
Proof. apply (empty_input 8 2 true 10). lia. Defined.

(** C6: the worked example without stopwords. *)
Theorem example_no_stopwords :
  map_reduce_parallel (lit "the cat sat on the mat the cat ran") 1 1 false =
    Ok [(lit "the", 3); (lit "cat", 2); (lit "sat", 1); (lit "on", 1);
        (lit "mat", 1); (lit "ran", 1)] /\
  most_common [(lit "the", 3); (lit "cat", 2); (lit "sat", 1); (lit "on", 1);
               (lit "mat", 1); (lit "ran", 1)] 2 =
    [(lit "the", 3); (lit "cat", 2)].
Proof. split; vm_compute; reflexivity. Qed.

(** ** Dictionaries and sums *)

Lemma str_eqb_eq a b : str_eqb a b = true <-> a = b.
Proof. unfold str_eqb. apply bool_decide_eq_true. Qed.

Lemma foldl_add acc l : foldl Z.add acc l = acc + sum l.
Proof.
  unfold sum. revert acc. induction l as [|x l IH]; intros acc; cbn [foldl]; [lia|].
  rewrite (IH (acc + x)), (IH (0 + x)). lia.
Qed.

Lemma sum_cons x l : sum (x :: l) = x + sum l.
Proof. unfold sum at 1. cbn [foldl]. rewrite foldl_add. lia. Qed.

Lemma sum_app l1 l2 : sum (l1 ++ l2) = sum l1 + sum l2.
Proof.
  induction l1 as [|x l1 IH]; [done|].
  simpl. rewrite !sum_cons, IH. lia.
Qed.

Section DictLemmas.
Context {V : Type}.
Implicit Types (d : dict V) (k : str) (v : V).

Lemma dict_set_Forall (Q : str * V -> Prop) d k v :
  Forall Q d -> Q (k, v) -> Forall Q (dict_set d k v).
Proof.
  intros Hd Hq. induction Hd as [|[k' v'] d Hx Hd IH]; simpl.
  - by constructor.
  - destruct (str_eqb k' k) eqn:E.
    + apply str_eqb_eq in E as ->. by constructor.
    + by constructor.
Qed.

Lemma dict_get_Forall (Q : str * V -> Prop) d k v :
  Forall Q d -> dict_get d k = Some v -> Q (k, v).
Proof.
  intros Hd. induction Hd as [|[k' v'] d Hx Hd IH]; simpl; [done|].
  destruct (str_eqb k' k) eqn:E; [|done].
  apply str_eqb_eq in E as ->. by intros [= ->].
Qed.
End DictLemmas.

Lemma sum_values_dict_set (d : dict Z) k v :
  sum (values (dict_set d k v)) = sum (values d) - default 0 (dict_get d k) + v.
Proof.
  induction d as [|[k' v'] d IH]; simpl.
  - unfold values. simpl. rewrite sum_cons. unfold sum. simpl. lia.
  - destruct (str_eqb k' k); unfold values in *; simpl; rewrite !sum_cons.
    + lia.
    + rewrite IH. lia.
Qed.

Lemma sum_values_counter_add (c : Counter) k cnt :
  sum (values (counter_add c k cnt)) = sum (values c) + cnt.
Proof. unfold counter_add, counter_get. rewrite sum_values_dict_set. lia. Qed.

(** ** Mass of the normalised table *)

Lemma sum_values_normalize_tokens min_len stop cnt toks (c : Counter) :
  sum (values (foldl (fun normalized t =>
                        if keeps min_len stop t then counter_add normalized t cnt
                        else normalized) c toks)) =
  sum (values c) + cnt * len (filter (fun t => keeps min_len stop t = true) toks).
Proof.
  revert c. induction toks as [|t toks IH]; intros c; simpl.
  - unfold len. simpl. lia.
  - rewrite IH, filter_cons. destruct (keeps min_len stop t) eqn:E.
    + rewrite decide_True by done. rewrite sum_values_counter_add.
      unfold len. simpl. lia.
    + rewrite decide_False by done. done.
Qed.

Lemma sum_values_normalize_word min_len stop (c : Counter) wc :
  sum (values (normalize_word min_len stop c wc)) =
  sum (values c) + wc.2 * kept_tokens min_len stop wc.1.
Proof. apply sum_values_normalize_tokens. Qed.

(** Each raw word contributes its count once per token that passes the
    filter. *)
Lemma sum_values_normalize reduced min_len use_stopwords :
  sum (values (normalize reduced min_len use_stopwords)) =
  sum (map (fun wc => wc.2 * kept_tokens min_len (stop_set use_stopwords) wc.1)
           reduced).
Proof.
  unfold normalize. generalize (stop_set use_stopwords) as stop. intros stop.
  assert (H : forall c : Counter,
             sum (values (foldl (normalize_word min_len stop) c reduced)) =
             sum (values c) +
             sum (map (fun wc => wc.2 * kept_tokens min_len stop wc.1) reduced)).
  { induction reduced as [|wc reduced IH]; intros c; simpl.
    - unfold sum at 3. simpl. lia.
    - rewrite IH, sum_values_normalize_word, sum_cons. lia. }
  rewrite H. unfold values, sum at 1. simpl. lia.
Qed.

Lemma kept_tokens_le min_len stop word :
  0 <= kept_tokens min_len stop word <= len (tokenize word).
Proof.
  unfold kept_tokens, len. pose proof (length_filter
    (fun t => keeps min_len stop t = true) (tokenize word)). lia.
Qed.

Lemma normalize_mass_bound reduced min_len use_stopwords :
  Forall (fun wc : str * Z => 0 <= wc.2) reduced ->
  single_token_keys reduced = true ->
  sum (values (normalize reduced min_len use_stopwords)) <= sum (values reduced).
Proof.
  intros Hpos Hone. rewrite sum_values_normalize.
  unfold single_token_keys in Hone. unfold values.
  induction Hpos as [|wc reduced Hwc Hpos IH]; [done|].
  simpl in *. apply andb_true_iff in Hone as [H1 Hone].
  rewrite !sum_cons. specialize (IH Hone).
  pose proof (kept_tokens_le min_len (stop_set use_stopwords) wc.1).
  apply Z.leb_le in H1. nia.
Qed.

(** ** Counts of the merged table *)

Lemma shuffle_function_sums mapped :
  Forall (fun kv : str * Z => kv.2 = 1) mapped ->
  Forall (fun kv : str * list Z => 1 <= sum kv.2) (shuffle_function mapped).
Proof.
  unfold shuffle_function.
  assert (H : forall d : dict (list Z),
             Forall (fun kv : str * list Z => 1 <= sum kv.2) d ->
             Forall (fun kv : str * Z => kv.2 = 1) mapped ->
             Forall (fun kv : str * list Z => 1 <= sum kv.2)
                    (foldl shuffle_step d mapped)).
  { induction mapped as [|[k v] mapped IH]; intros d Hd Hm; [done|].
    simpl. apply Forall_cons in Hm as [Hv Hm]. simpl in Hv. subst v.
    apply IH; [|done]. unfold shuffle_step. simpl.
    apply dict_set_Forall; [done|]. simpl. rewrite sum_app.
    destruct (dict_get d k) as [vs|] eqn:E; simpl.
    - pose proof (dict_get_Forall _ _ _ _ Hd E) as Hvs. simpl in Hvs.
      unfold sum at 2. simpl. lia.
    - unfold sum. simpl. lia. }
  intros Hm. apply H; [constructor|done].
Qed.

Lemma reduce_function_counts shuffled :
  Forall (fun kv : str * list Z => 1 <= sum kv.2) shuffled ->
  Forall (fun kv : str * Z => 1 <= kv.2) (reduce_function shuffled).
Proof.
  unfold reduce_function.
  assert (H : forall d : dict Z,
             Forall (fun kv : str * Z => 1 <= kv.2) d ->
             Forall (fun kv : str * list Z => 1 <= sum kv.2) shuffled ->
             Forall (fun kv : str * Z => 1 <= kv.2)
                    (foldl (fun reduced kv => dict_set reduced kv.1 (sum kv.2))
                           d shuffled)).
  { induction shuffled as [|[k vs] shuffled IH]; intros d Hd Hs; [done|].
    simpl. apply Forall_cons in Hs as [Hv Hs].
    apply IH; [|done]. by apply dict_set_Forall. }
  intros Hs. apply H; [constructor|done].
Qed.

Lemma mapped_all_ones text workers :
  Forall (fun kv : str * Z => kv.2 = 1) (mapped_all text workers).
Proof.
  unfold mapped_all, pool_map. apply Forall_concat, Forall_forall.
  intros m Hm. apply list_elem_of_fmap in Hm as (part & -> & _).
  unfold map_function. apply Forall_forall. intros kv Hkv.
  apply list_elem_of_fmap in Hkv as (w & -> & _). done.
Qed.

Lemma merged_table_counts text workers :
  Forall (fun kv : str * Z => 1 <= kv.2) (merged_table text workers).
Proof.
  apply reduce_function_counts, shuffle_function_sums, mapped_all_ones.
Qed.

(** C1 (as amended): when every raw word of the merged table holds at most
    one token, the counts of the normalised table sum to at most the counts
    of the merged table. *)
Theorem normalization_mass (text : str) (workers min_len : Z)
    (use_stopwords : bool) (freq : Counter) :
  map_reduce_parallel text workers min_len use_stopwords = Ok freq ->
  single_token_keys (merged_table text workers) = true ->
  sum (values freq) <= sum (values (merged_table text workers)).
Proof.
  intros Hrun Hone.
  destruct (Z.le_gt_cases workers 0) as [Hw|Hw].
  - rewrite map_reduce_parallel_raise in Hrun by done. discriminate.
  - rewrite map_reduce_parallel_ok in Hrun by lia. injection Hrun as <-.
    apply normalize_mass_bound; [|done].
    eapply Forall_impl; [apply merged_table_counts|]. simpl. intros. lia.
Qed.

Lemma normalization_mass_witness :
  sum (values [(lit "cat", 2); (lit "sat", 1)]) <=
  sum (values (merged_table (lit "the cat, sat. The cat") 3)).
Proof.
  apply (normalization_mass (lit "the cat, sat. The cat") 3 1 true);
    reflexivity.
Defined.

(** C1 as stated fails: the raw word [a-b] has count 1 in the merged table
    and yields the two tokens [a] and [b], each with count 1. *)
Lemma hyphenated_word_adds_mass :
  map_reduce_parallel (lit "a-b") 1 1 false = Ok [(lit "a", 1); (lit "b", 1)] /\
  merged_table (lit "a-b") 1 = [(lit "a-b", 1)] /\
  ~ sum (values [(lit "a", 1); (lit "b", 1)]) <=
    sum (values (merged_table (lit "a-b") 1)).
Proof. split; [reflexivity|]. split; [reflexivity|]. vm_compute. intros H. by apply H. Qed.

(** ** Tokens *)

Ltac class_props :=
  unfold is_word_char, is_upper, in_range in *;
  rewrite ?orb_true_iff, ?andb_true_iff, ?orb_false_iff, ?andb_false_iff,
    ?N.leb_le, ?N.leb_gt, ?N.eqb_eq, ?N.eqb_neq in *.

Ltac lower_cases c :=
  unfold lower_char;
  destruct (in_range 0x41 0x5A c) eqn:?;
  [|destruct (in_range 0x410 0x42F c) eqn:?;
    [|destruct ((c =? 0x401)%N || (c =? 0x406)%N || (c =? 0x407)%N || (c =? 0x404)%N)
        eqn:?]].

Lemma lower_char_word c :
  is_word_char c = true -> is_word_char (lower_char c) = true.
Proof. intros H. lower_cases c; class_props; lia. Qed.

Lemma lower_char_not_upper c : is_upper (lower_char c) = false.
Proof. lower_cases c; class_props; lia. Qed.

Lemma lower_char_fixed c : is_upper c = false -> lower_char c = c.
Proof. intros H. lower_cases c; class_props; lia. Qed.

Lemma lower_idempotent s : lower (lower s) = lower s.
Proof.
  unfold lower. rewrite map_map. apply map_ext. intros c.
  apply lower_char_fixed, lower_char_not_upper.
Qed.

Lemma flush_runs (p : char -> bool) cur :
  Forall (fun c => p c = true) cur ->
  Forall (fun r => r <> [] /\ Forall (fun c => p c = true) r) (flush cur).
Proof.
  intros H. destruct cur as [|x cur]; [constructor|].
  constructor; [|constructor]. split.
  - simpl. intros E. by apply app_eq_nil in E as [_ ?].
  - by apply Forall_rev.
Qed.

(** Every run is non-empty and made of characters of the class. *)
Lemma runs_from_class (p : char -> bool) cur s :
  Forall (fun c => p c = true) cur ->
  Forall (fun r => r <> [] /\ Forall (fun c => p c = true) r) (runs_from p cur s).
Proof.
  revert cur. induction s as [|c s IH]; intros cur Hcur; simpl.
  - by apply flush_runs.
  - destruct (p c) eqn:E.
    + apply IH. by constructor.
    + apply Forall_app. split; [by apply flush_runs|]. apply IH. constructor.
Qed.

Lemma is_lower_word_lower r :
  Forall (fun c => is_word_char c = true) r -> is_lower_word (lower r) = true.
Proof.
  induction 1 as [|c r Hc Hr IH]; [done|].
  simpl. rewrite (lower_char_word c Hc), lower_char_not_upper, IH. done.
Qed.

Lemma tokenize_clean text : Forall clean_token (tokenize text).
Proof.
  unfold tokenize, finditer_WORD_RE, runs.
  pose proof (runs_from_class is_word_char [] text ltac:(constructor)) as H.
  induction H as [|r rs [Hne Hr] Hrs IH]; [constructor|].
  cbn [map]. constructor; [|exact IH].
  split; [|split].
  - destruct r; done.
  - by apply is_lower_word_lower.
  - apply lower_idempotent.
Qed.

(** ** Keys and counts of the normalised table *)

Section NormalizeInvariant.
Variable min_len : Z.
Variable stop : list str.

Local Abbreviation good := (good_entry min_len stop).

Lemma counter_add_good (c : Counter) t cnt :
  Forall good c -> clean_token t -> keeps min_len stop t = true -> 1 <= cnt ->
  Forall good (counter_add c t cnt).
Proof.
  intros Hc Ht Hk Hcnt. unfold counter_add, counter_get.
  apply dict_set_Forall; [done|]. split; [done|]. split; [done|]. simpl.
  destruct (dict_get c t) as [v|] eqn:E; simpl; [|lia].
  pose proof (dict_get_Forall _ _ _ _ Hc E) as (_ & _ & Hv). simpl in Hv. lia.
Qed.

Lemma normalize_word_good (c : Counter) wc :
  Forall good c -> 1 <= wc.2 -> Forall good (normalize_word min_len stop c wc).
Proof.
  intros Hc Hcnt. unfold normalize_word.
  pose proof (tokenize_clean wc.1) as Htoks. revert c Hc.
  induction Htoks as [|t toks Ht Htoks IH]; intros c Hc; [done|].
  simpl. apply IH. destruct (keeps min_len stop t) eqn:E; [|done].
  by apply counter_add_good.
Qed.

Lemma normalize_fold_good (c : Counter) reduced :
  Forall good c -> Forall (fun kv : str * Z => 1 <= kv.2) reduced ->
  Forall good (foldl (normalize_word min_len stop) c reduced).
Proof.
  intros Hc Hr. revert c Hc.
  induction Hr as [|wc reduced Hwc Hr IH]; intros c Hc; [done|].
  simpl. apply IH. by apply normalize_word_good.
Qed.
End NormalizeInvariant.

(** C9: every key of the returned table is a non-empty lower-case token over
    the characters of [WORD_RE], at least [min_len] long and, when stopwords
    are in use, not a stopword; every count is at least 1. *)
Theorem table_entries_clean (text : str) (workers min_len : Z)
    (use_stopwords : bool) (freq : Counter) (t : str) (cnt : Z) :
  map_reduce_parallel text workers min_len use_stopwords = Ok freq ->
  (t, cnt) ∈ freq ->
  t <> [] /\
  Forall (fun c => is_word_char c = true /\ is_upper c = false) t /\
  lower t = t /\
  min_len <= len t /\
  (use_stopwords = true -> str_in t DEFAULT_STOPWORDS = false) /\
  1 <= cnt.
Proof.
  intros Hrun Hin.
  destruct (Z.le_gt_cases workers 0) as [Hw|Hw].
  { rewrite map_reduce_parallel_raise in Hrun by done. discriminate. }
  rewrite map_reduce_parallel_ok in Hrun by lia. injection Hrun as <-.
  pose proof (normalize_fold_good min_len (stop_set use_stopwords) []
                (merged_table text workers) ltac:(constructor)
                (merged_table_counts text workers)) as Hgood.
  rewrite Forall_forall in Hgood.
  destruct (Hgood _ Hin) as ((Hne & Hlow & Hfix) & Hkeep & Hcnt). simpl in *.
  unfold keeps in Hkeep. apply andb_true_iff in Hkeep as [Hlen Hstop].
  apply Z.leb_le in Hlen. apply negb_true_iff in Hstop.
  repeat split; try done.
  - clear -Hlow. induction t as [|c t IH]; [constructor|].
    simpl in Hlow. apply andb_true_iff in Hlow as [Hc Ht].
    apply andb_true_iff in Hc as [Hc1 Hc2]. apply negb_true_iff in Hc2.
    constructor; [done|]. by apply IH.
  - intros ->. exact Hstop.
Qed.

Lemma table_entries_clean_witness :
  lit "cat" <> [] /\
  Forall (fun c => is_word_char c = true /\ is_upper c = false) (lit "cat") /\
  lower (lit "cat") = lit "cat" /\
  3 <= len (lit "cat") /\
  (true = true -> str_in (lit "cat") DEFAULT_STOPWORDS = false) /\
  1 <= 2.
Proof.
  apply (table_entries_clean (lit "The CAT, the cat's cat") 2 3 true
           [(lit "cat", 2); (lit "cat's", 1)] (lit "cat") 2).
  - reflexivity.
  - vm_compute. left.
Defined.

(** ** Top-N selection *)

Lemma insert_desc_perm x l : insert_desc x l ≡ₚ x :: l.
Proof.
  induction l as [|y l IH]; simpl; [done|].
  destruct (x.2 <? y.2); [|done].
  rewrite IH. apply perm_swap.
Qed.

Lemma sorted_desc_perm items : sorted_desc items ≡ₚ items.
Proof.
  induction items as [|x items IH]; simpl; [done|].
  rewrite insert_desc_perm. by constructor.
Qed.

Lemma insert_desc_sorted x l :
  StronglySorted count_ge l -> StronglySorted count_ge (insert_desc x l).
Proof.
  induction 1 as [|y l Hl IH Hy]; simpl.
  - repeat constructor.
  - destruct (Z.ltb_spec x.2 y.2) as [Hlt|Hge].
    + constructor; [done|]. rewrite insert_desc_perm.
      constructor; [|done]. unfold count_ge. lia.
    + constructor; [by constructor|].
      constructor; [unfold count_ge; lia|].
      eapply Forall_impl; [exact Hy|]. unfold count_ge. intros z Hz; simpl in *. lia.
Qed.

Lemma sorted_desc_sorted items : StronglySorted count_ge (sorted_desc items).
Proof.
  induction items as [|x items IH]; simpl; [constructor|].
  by apply insert_desc_sorted.
Qed.

(** Insertion never moves an entry past another entry with the same count. *)
Lemma with_count_insert_desc v x l :
  with_count v (insert_desc x l) = with_count v (x :: l).
Proof.
  unfold with_count. induction l as [|y l IH]; simpl; [done|].
  destruct (Z.ltb_spec x.2 y.2) as [Hlt|Hge]; [|done].
  rewrite (filter_cons _ y), IH, !(filter_cons _ x), (filter_cons _ y).
  destruct (decide (x.2 = v)), (decide (y.2 = v)); try done. lia.
Qed.

(** The sort is stable: entries with equal counts keep their order of
    insertion. *)
Lemma with_count_sorted_desc v items :
  with_count v (sorted_desc items) = with_count v items.
Proof.
  induction items as [|x items IH]; simpl; [done|].
  rewrite with_count_insert_desc. unfold with_count in *.
  rewrite !(filter_cons _ x), IH. done.
Qed.

(** C7: for [n >= 0] the selection has at most [n] entries, in descending
    order of count; among entries with the same count it takes them in their
    order of insertion in the table; the entries left out have counts no
    larger than the selected ones. On the example with stopwords the top 2 is
    cat 2, sat 1. *)
Theorem top_n_selection (freq : Counter) (n : Z) :
  0 <= n ->
  len (most_common freq n) <= n /\
  StronglySorted count_ge (most_common freq n) /\
  (forall v, with_count v (most_common freq n) `prefix_of` with_count v freq) /\
  (exists rest,
     most_common freq n ++ rest ≡ₚ freq /\
     forall x y, x ∈ most_common freq n -> y ∈ rest -> y.2 <= x.2) /\
  run_pipeline (lit "the cat sat on the mat the cat ran") 1 1 true 2 =
    Ok ([(lit "cat", 2); (lit "sat", 1); (lit "mat", 1); (lit "ran", 1)],
        [(lit "cat", 2); (lit "sat", 1)]).
Proof.
  intros Hn. unfold most_common.
  pose proof (sorted_desc_sorted freq) as Hs.
  rewrite <- (take_drop (Z.to_nat n) (sorted_desc freq)) in Hs.
  split; [|split; [|split; [|split]]].
  - unfold len. rewrite length_take. lia.
  - by apply StronglySorted_app_1_l in Hs.
  - intros v. rewrite <- (with_count_sorted_desc v freq).
    rewrite <- (take_drop (Z.to_nat n) (sorted_desc freq)) at 2.
    unfold with_count. rewrite filter_app. by eexists.
  - exists (drop (Z.to_nat n) (sorted_desc freq)). split.
    + rewrite take_drop. apply sorted_desc_perm.
    + intros x y Hx Hy.
      apply (StronglySorted_app_1_elem_of _ _ _ x y Hs Hx Hy).
  - vm_compute. reflexivity.
Qed.

Lemma top_n_selection_witness :
  len (most_common [(lit "b", 1); (lit "a", 2); (lit "c", 1)] 2) <= 2.
Proof.
  apply (top_n_selection [(lit "b", 1); (lit "a", 2); (lit "c", 1)] 2). lia.
Defined.

(** ** Completion order of the workers *)

Section Pool.
Context {A B : Type} (f : A -> B) (tasks : list A).

Lemma complete_length futures i :
  length (complete f tasks futures i) = length futures.
Proof. unfold complete. destruct (tasks !! i); [apply length_insert|done]. Qed.

(** After the tasks of [finished] and then those of [schedule] have
    completed, a future holds its result exactly when its index is among
    them. *)
Lemma run_schedule_futures schedule :
  forall (futures : list (option B)) (finished : list nat),
  length futures = length tasks ->
  (forall i x, tasks !! i = Some x ->
     futures !! i =
     Some (if existsb (Nat.eqb i) finished then Some (f x) else None)) ->
  length (foldl (complete f tasks) futures schedule) = length tasks /\
  forall i x, tasks !! i = Some x ->
    foldl (complete f tasks) futures schedule !! i =
    Some (if existsb (Nat.eqb i) (finished ++ schedule) then Some (f x) else None).
Proof.
  induction schedule as [|j schedule IH]; intros futures finished Hlen Hinv.
  - simpl. rewrite app_nil_r. done.
  - cbn [foldl]. rewrite (cons_middle j finished schedule), app_assoc.
    apply IH; [by rewrite complete_length|].
    intros i x Hi. rewrite existsb_app. cbn [existsb]. rewrite orb_false_r.
    unfold complete. destruct (Nat.eqb_spec i j) as [->|Hne].
    + rewrite Hi, orb_true_r. apply list_lookup_insert_eq.
      rewrite Hlen. by eapply lookup_lt_Some.
    + rewrite orb_false_r. destruct (tasks !! j).
      * rewrite list_lookup_insert_ne by done. by apply Hinv.
      * by apply Hinv.
Qed.

Lemma all_complete_covers n schedule i :
  all_complete n schedule = true -> (i < n)%nat ->
  existsb (Nat.eqb i) schedule = true.
Proof.
  unfold all_complete. rewrite forallb_forall. intros H Hi.
  apply H, in_seq. lia.
Qed.

Lemma gather_all (g : A -> B) (l : list A) :
  forall futures : list (option B),
  length futures = length l ->
  (forall i x, l !! i = Some x -> futures !! i = Some (Some (g x))) ->
  gather futures = Some (map g l).
Proof.
  induction l as [|x l IH]; intros [|r futures] Hlen Hall; try done.
  pose proof (Hall 0%nat x eq_refl) as H0. simpl in H0. injection H0 as ->.
  simpl. rewrite (IH futures); [done|by injection Hlen|].
  intros i y Hi. apply (Hall (S i) y Hi).
Qed.

(** Whatever the order of completion, [pool.map] yields the results in
    the order of submission. *)
Lemma pool_map_scheduled_order schedule :
  all_complete (length tasks) schedule = true ->
  pool_map_scheduled f tasks schedule = Some (pool_map f tasks).
Proof.
  intros Hall. unfold pool_map_scheduled, run_workers, pool_map.
  destruct (run_schedule_futures schedule (replicate (length tasks) None) [])
    as [Hlen Hinv].
  - apply length_replicate.
  - intros i x Hi. simpl. apply lookup_replicate. split; [done|].
    by eapply lookup_lt_Some.
  - apply gather_all; [done|]. intros i x Hi.
    rewrite (Hinv i x Hi). simpl.
    rewrite (all_complete_covers _ _ i Hall); [done|].
    by eapply lookup_lt_Some.
Qed.
End Pool.

Lemma run_pipeline_scheduled_eq schedule text workers min_len use_stopwords top_n :
  all_complete (length (chunk_text text workers)) schedule = true ->
  run_pipeline_scheduled schedule text workers min_len use_stopwords top_n =
  Some (run_pipeline text workers min_len use_stopwords top_n).
Proof.
  intros Hall.
  unfold run_pipeline_scheduled, run_pipeline, map_reduce_scheduled,
    map_reduce_parallel.
  destruct (ThreadPoolExecutor workers); [|done].
  rewrite pool_map_scheduled_order by done. done.
Qed.

(** C8: two runs on the same text and configuration return the same table
    and the same top-N list, whatever the order in which the worker threads
    finish their chunks; both are the result of [run_pipeline]. *)
Theorem pipeline_deterministic (s1 s2 : list nat) (text : str)
    (workers min_len : Z) (use_stopwords : bool) (top_n : Z) :
  all_complete (length (chunk_text text workers)) s1 = true ->
  all_complete (length (chunk_text text workers)) s2 = true ->
  run_pipeline_scheduled s1 text workers min_len use_stopwords top_n =
  run_pipeline_scheduled s2 text workers min_len use_stopwords top_n /\
  run_pipeline_scheduled s1 text workers min_len use_stopwords top_n =
  Some (run_pipeline text workers min_len use_stopwords top_n).
Proof.
  intros H1 H2. rewrite !run_pipeline_scheduled_eq by done. done.
Qed.

Lemma pipeline_deterministic_witness :
  run_pipeline_scheduled [0; 1; 2]%nat (lit "a b a") 2 1 false 1 =
  run_pipeline_scheduled [2; 0; 1]%nat (lit "a b a") 2 1 false 1 /\
  run_pipeline_scheduled [0; 1; 2]%nat (lit "a b a") 2 1 false 1 =
  Some (run_pipeline (lit "a b a") 2 1 false 1).
Proof.
  apply (pipeline_deterministic [0; 1; 2]%nat [2; 0; 1]%nat (lit "a b a") 2 1 false 1);
    reflexivity.
Defined.

(** * Further properties of the script *)

(** ** Words and tokens *)

Lemma concat_flush cur : concat (flush cur) = rev cur.
Proof. destruct cur; [done|]. unfold flush. simpl. by rewrite app_nil_r. Qed.

Lemma runs_from_concat p cur s :
  concat (runs_from p cur s) = rev cur ++ List.filter p s.
Proof.
  revert cur. induction s as [|c s IH]; intros cur; simpl.
  - by rewrite concat_flush, app_nil_r.
  - destruct (p c).
    + rewrite IH. simpl. by rewrite <- app_assoc.
    + rewrite concat_app, concat_flush, IH. done.
Qed.

Lemma runs_from_all p cur s :
  Forall (fun c => p c = true) s -> runs_from p cur s = flush (rev s ++ cur).
Proof.
  intros H. revert cur. induction H as [|c s Hc Hs IH]; intros cur; simpl; [done|].
  rewrite Hc, IH. by rewrite <- app_assoc.
Qed.

Lemma runs_whole p s :
  s <> [] -> Forall (fun c => p c = true) s -> runs p s = [s].
Proof.
  intros Hne H. unfold runs. rewrite runs_from_all by done.
  rewrite app_nil_r. unfold flush.
  destruct (rev s) eqn:E.
  - apply (f_equal (@rev _)) in E. rewrite rev_involutive in E. done.
  - by rewrite <- E, rev_involutive.
Qed.

(** The mapper: every pair is a non-empty word without whitespace with the
    value 1; the words, in order, spell the text with its whitespace
    removed; a non-empty text without whitespace is its own single word. *)
Theorem map_function_words (text : str) :
  Forall (fun kv : str * Z =>
            kv.2 = 1 /\ kv.1 <> [] /\ Forall (fun c => isspace c = false) kv.1)
         (map_function text) /\
  concat (map fst (map_function text)) =
    List.filter (fun c => negb (isspace c)) text /\
  (text <> [] -> Forall (fun c => isspace c = false) text ->
   map_function text = [(text, 1)]).
Proof.
  unfold map_function, split. split; [|split].
  - pose proof (runs_from_class (fun c => negb (isspace c)) [] text
                  ltac:(constructor)) as H.
    fold (runs (fun c => negb (isspace c)) text) in H.
    induction H as [|w ws [Hne Hw] Hws IH]; [constructor|].
    cbn [map]. constructor; [|exact IH]. split; [done|]. split; [done|].
    eapply Forall_impl; [exact Hw|]. intros c Hc. by apply negb_true_iff.
  - rewrite map_map. simpl. rewrite map_id. apply (runs_from_concat _ []).
  - intros Hne Hns. rewrite runs_whole; [done|done|].
    eapply Forall_impl; [exact Hns|]. intros c Hc. by apply negb_true_iff.
Qed.

Lemma map_function_words_witness :
  map_function (lit "word") = [(lit "word", 1)].
Proof.
  apply (map_function_words (lit "word")); [done|].
  repeat constructor.
Defined.

Lemma is_lower_word_chars t :
  is_lower_word t = true ->
  Forall (fun c => is_word_char c = true) t /\ lower t = t.
Proof.
  induction t as [|c t IH]; [done|]. simpl. intros H.
  apply andb_true_iff in H as [Hc Ht]. apply andb_true_iff in Hc as [Hc1 Hc2].
  apply negb_true_iff in Hc2. destruct (IH Ht) as [IH1 IH2]. split.
  - by constructor.
  - unfold lower in *. simpl. by rewrite IH2, lower_char_fixed.
Qed.

(** The tokenizer: the tokens are clean (non-empty, over the class of
    [WORD_RE], lower-case); in order they spell the lower-cased word
    characters of the text; a clean token is its own only token. *)
Theorem tokenize_tokens (text : str) :
  Forall clean_token (tokenize text) /\
  concat (tokenize text) = lower (List.filter is_word_char text) /\
  (clean_token text -> tokenize text = [text]).
Proof.
  split; [apply tokenize_clean|]. split.
  - unfold tokenize, finditer_WORD_RE, runs, lower.
    pose proof (runs_from_concat is_word_char [] text) as Hc.
    simpl in Hc. rewrite <- Hc. clear Hc.
    generalize (runs_from is_word_char [] text) as l.
    induction l as [|r l IH]; [done|]. simpl. by rewrite map_app, IH.
  - intros (Hne & Hlow & Hfix). unfold tokenize, finditer_WORD_RE.
    destruct (is_lower_word_chars _ Hlow) as [Hw _].
    rewrite runs_whole by done. simpl. by rewrite Hfix.
Qed.

Lemma tokenize_tokens_witness : tokenize (lit "it's") = [lit "it's"].
Proof.
  apply (tokenize_tokens (lit "it's")). repeat split; try done.
Defined.

(** ** Sizes and number of the chunks *)

Lemma len_slice {A} (s : list A) i j :
  0 <= i <= j -> j <= len s -> len (slice s i j) = j - i.
Proof.
  intros Hij Hj. unfold slice, len in *. rewrite length_take, length_drop. lia.
Qed.

Lemma chunk_text_lookup text chunks (j : nat) c :
  1 < chunks ->
  chunk_text text chunks !! j = Some c ->
  c = chunk_piece text (chunk_step text chunks) (Z.of_nat j * chunk_step text chunks) /\
  (j < Z.to_nat (range_len 0 (len text) (chunk_step text chunks)))%nat.
Proof.
  intros Hk. unfold chunk_text. destruct (Z.leb_spec chunks 1); [lia|].
  fold (chunk_step text chunks). unfold range. intros Hj.
  apply list_lookup_fmap_Some_1 in Hj as (i & -> & Hi).
  apply list_lookup_fmap_Some_1 in Hi as (m & -> & Hm).
  apply lookup_seq in Hm as [-> Hlt]. split; [|done].
  unfold chunk_piece. simpl. done.
Qed.

(** With [chunks > 1] no chunk is empty, none is longer than the stride, and
    every chunk but the last has exactly the stride's length. *)
Theorem chunk_text_sizes (text : str) (chunks : Z) (j : nat) (c : str) :
  1 < chunks ->
  chunk_text text chunks !! j = Some c ->
  1 <= len c <= chunk_step text chunks /\
  ((S j < length (chunk_text text chunks))%nat -> len c = chunk_step text chunks).
Proof.
  intros Hk Hj.
  pose proof (chunk_text_count text chunks Hk) as Hcount.
  destruct (chunk_text_lookup _ _ _ _ Hk Hj) as [-> Hlt].
  pose proof (chunk_step_pos text chunks) as Hstep.
  set (step := chunk_step text chunks) in *.
  assert (Hn : 0 < len text).
  { destruct (Z.le_gt_cases (len text) 0); [|lia].
    rewrite range_len_empty in Hlt by done. simpl in Hlt. lia. }
  destruct (range_len_bounds (len text) step Hstep Hn) as (Hc & Hl & Hp).
  set (L := range_len 0 (len text) step) in *.
  assert (Hi : Z.of_nat j * step < len text) by nia.
  unfold chunk_piece. rewrite len_slice by lia. split; [lia|].
  intros Hnext. unfold len in Hcount. rewrite Z.min_r; [lia|]. nia.
Qed.

Lemma chunk_text_sizes_witness :
  1 <= len (lit "def") <= chunk_step (lit "abcdefghij") 3 /\
  ((S 1 < length (chunk_text (lit "abcdefghij") 3))%nat ->
   len (lit "def") = chunk_step (lit "abcdefghij") 3).
Proof.
  apply (chunk_text_sizes (lit "abcdefghij") 3 1 (lit "def")); [lia|reflexivity].
Defined.

(** The number of chunks for [chunks > 1]: one chunk per character when the
    text is shorter than [chunks]; otherwise at least [chunks] and at most
    [2 * chunks - 1], and exactly [chunks] only when [chunks] divides the
    length of the text. *)
Theorem chunk_text_count_bounds (text : str) (chunks : Z) :
  1 < chunks ->
  (len text < chunks -> len (chunk_text text chunks) = len text) /\
  (chunks <= len text ->
   chunks <= len (chunk_text text chunks) <= 2 * chunks - 1 /\
   (len (chunk_text text chunks) = chunks <-> len text mod chunks = 0)).
Proof.
  intros Hk. rewrite (chunk_text_count text chunks Hk).
  unfold chunk_step, range_len. pose proof (len_nonneg text) as Hn0.
  set (n := len text) in *. split.
  - intros Hlt. rewrite (Z.div_small n chunks) by lia.
    replace (Z.max 1 0) with 1 by lia.
    destruct (Z.ltb_spec 0 n); [|lia]. rewrite Z.div_1_r. lia.
  - intros Hge.
    pose proof (Z.div_mod n chunks ltac:(lia)) as Hdm.
    pose proof (Z.mod_pos_bound n chunks ltac:(lia)) as Hr.
    assert (Hq : 1 <= n / chunks) by (apply Z.div_le_lower_bound; lia).
    rewrite Z.max_r by lia.
    set (q := n / chunks) in *. set (r := n mod chunks) in *.
    destruct (Z.ltb_spec 0 n); [|lia].
    replace (n - 0 - 1) with (n - 1) by lia.
    pose proof (Z.div_mod (n - 1) q ltac:(lia)) as Hdm'.
    pose proof (Z.mod_pos_bound (n - 1) q ltac:(lia)) as Hs.
    set (c := (n - 1) / q) in *. set (s := (n - 1) mod q) in *.
    assert (Hlow : chunks - 1 <= c) by nia.
    assert (Hup : c <= 2 * chunks - 2) by nia.
    split; [lia|]. split; intros Heq.
    + assert (c = chunks - 1) by lia. nia.
    + assert (c < chunks) by nia. lia.
Qed.

Lemma chunk_text_count_bounds_witness :
  (len (lit "abcdefghij") < 3 -> len (chunk_text (lit "abcdefghij") 3) = len (lit "abcdefghij")) /\
  (3 <= len (lit "abcdefghij") ->
   3 <= len (chunk_text (lit "abcdefghij") 3) <= 2 * 3 - 1 /\
   (len (chunk_text (lit "abcdefghij") 3) = 3 <-> len (lit "abcdefghij") mod 3 = 0)).
Proof. apply (chunk_text_count_bounds (lit "abcdefghij") 3). lia. Defined.

(** ** Raw words under chunking *)

Lemma runs_from_count_nonempty p x cur y cur' s :
  length (runs_from p (x :: cur) s) = length (runs_from p (y :: cur') s).
Proof.
  revert x cur y cur'. induction s as [|c s IH]; intros x cur y cur'; simpl.
  - done.
  - destruct (p c); [apply IH|done].
Qed.

Lemma runs_from_count_flush p cur b :
  (length (runs_from p cur b) <= length (flush cur) + length (runs_from p [] b)
   <= length (runs_from p cur b) + 1)%nat.
Proof.
  destruct cur as [|x cur]; [simpl; lia|].
  destruct b as [|c b]; simpl; [lia|].
  destruct (p c).
  - rewrite (runs_from_count_nonempty p c (x :: cur) c []). lia.
  - cbn [length]. lia.
Qed.

Lemma runs_from_count_app p cur a b :
  (length (runs_from p cur (a ++ b))
   <= length (runs_from p cur a) + length (runs_from p [] b)
   <= length (runs_from p cur (a ++ b)) + 1)%nat.
Proof.
  revert cur. induction a as [|c a IH]; intros cur; simpl.
  - apply runs_from_count_flush.
  - destruct (p c); [apply IH|]. rewrite !length_app. specialize (IH []). lia.
Qed.

Lemma split_count_concat (parts : list str) :
  (length (split (concat parts)) <= length (concat (map split parts))
   <= length (split (concat parts)) + (length parts - 1))%nat.
Proof.
  induction parts as [|a parts IH]; [simpl; lia|].
  cbn [map concat]. rewrite length_app.
  pose proof (runs_from_count_app (fun c => negb (isspace c)) [] a (concat parts))
    as Happ.
  fold (runs (fun c => negb (isspace c)) (a ++ concat parts)) in Happ.
  fold (runs (fun c => negb (isspace c)) a) in Happ.
  fold (runs (fun c => negb (isspace c)) (concat parts)) in Happ.
  fold (split (a ++ concat parts)) in Happ. fold (split a) in Happ.
  fold (split (concat parts)) in Happ.
  destruct parts as [|b parts].
  - simpl in *. rewrite app_nil_r. lia.
  - cbn [length] in *. lia.
Qed.

Lemma mapped_all_raw_words text workers :
  mapped_all text workers = map (fun word => (word, 1)) (raw_words text workers).
Proof. unfold mapped_all, pool_map, raw_words. apply concat_map_function. Qed.

(** Cutting the text into chunks never loses a raw word and adds at most one
    per boundary between chunks. *)
Theorem mapped_all_count (text : str) (workers : Z) :
  len (map_function text) <= len (mapped_all text workers) /\
  len (mapped_all text workers) <=
    len (map_function text) + Z.max 0 (len (chunk_text text workers) - 1).
Proof.
  rewrite mapped_all_raw_words. unfold map_function, raw_words, len.
  rewrite !length_map.
  pose proof (split_count_concat (chunk_text text workers)) as H.
  rewrite chunk_text_concat in H.
  set (a := length (split text)) in *.
  set (b := length (concat (map split (chunk_text text workers)))) in *.
  set (c := length (chunk_text text workers)) in *. lia.
Qed.

(** ** Lookup and update of dictionaries *)

Section DictUpdate.
Context {V : Type}.
Implicit Types (d : dict V) (k : str) (v : V).

Lemma str_eqb_refl k : str_eqb k k = true.
Proof. by apply str_eqb_eq. Qed.

Lemma str_eqb_ne k k' : k <> k' -> str_eqb k k' = false.
Proof.
  intros H. destruct (str_eqb k k') eqn:E; [|done]. by apply str_eqb_eq in E.
Qed.

Lemma dict_get_set_eq d k v : dict_get (dict_set d k v) k = Some v.
Proof.
  induction d as [|[k' v'] d IH]; simpl.
  - by rewrite str_eqb_refl.
  - destruct (str_eqb k' k) eqn:E; simpl; rewrite E; done.
Qed.

Lemma dict_get_set_ne d k k' v :
  k <> k' -> dict_get (dict_set d k v) k' = dict_get d k'.
Proof.
  intros Hne. induction d as [|[k1 v1] d IH]; simpl.
  - by rewrite str_eqb_ne.
  - destruct (str_eqb k1 k) eqn:E; simpl.
    + apply str_eqb_eq in E as ->. by rewrite str_eqb_ne.
    + by rewrite IH.
Qed.

Lemma dict_get_None_keys d k : dict_get d k = None <-> k ∉ keys d.
Proof.
  induction d as [|[k' v'] d IH]; simpl.
  - split; [intros _; apply not_elem_of_nil|done].
  - rewrite not_elem_of_cons. destruct (str_eqb k' k) eqn:E.
    + apply str_eqb_eq in E as ->. split; [done|]. by intros [? _].
    + rewrite IH. split; [|by intros [_ ?]]. intros H. split; [|done].
      intros ->. by rewrite str_eqb_refl in E.
Qed.

Lemma dict_set_fresh d k v : k ∉ keys d -> dict_set d k v = d ++ [(k, v)].
Proof.
  induction d as [|[k' v'] d IH]; simpl; [done|].
  rewrite not_elem_of_cons. intros [Hne Hd].
  rewrite str_eqb_ne by done. by rewrite IH.
Qed.

Lemma keys_dict_set d k v :
  keys (dict_set d k v) = if str_in k (keys d) then keys d else keys d ++ [k].
Proof.
  induction d as [|[k' v'] d IH]; simpl; [done|].
  unfold str_in in *. simpl. destruct (str_eqb k' k) eqn:E.
  - apply str_eqb_eq in E as ->. by rewrite str_eqb_refl.
  - rewrite (str_eqb_ne k k') by (intros ->; by rewrite str_eqb_refl in E).
    simpl. rewrite IH. by destruct (existsb (str_eqb k) (keys d)).
Qed.

Lemma str_in_elem_of k (l : list str) : str_in k l = true <-> k ∈ l.
Proof.
  unfold str_in. induction l as [|x l IH]; simpl.
  - split; [done|]. intros H. by apply elem_of_nil in H.
  - rewrite orb_true_iff, IH, elem_of_cons, str_eqb_eq. done.
Qed.

Lemma NoDup_keys_dict_set d k v : NoDup (keys d) -> NoDup (keys (dict_set d k v)).
Proof.
  intros H. rewrite keys_dict_set. destruct (str_in k (keys d)) eqn:E; [done|].
  apply NoDup_app. split; [done|]. split; [|apply NoDup_singleton].
  intros x Hx Hk. apply list_elem_of_singleton in Hk as ->.
  apply str_in_elem_of in Hx. congruence.
Qed.
End DictUpdate.

(** ** First occurrences *)

Lemma first_seen_ext s1 s2 l :
  (forall x, str_in x s1 = str_in x s2) -> first_seen s1 l = first_seen s2 l.
Proof.
  revert s1 s2. induction l as [|x l IH]; intros s1 s2 H; simpl; [done|].
  rewrite <- (H x). destruct (str_in x s1); [by apply IH|].
  f_equal. apply IH. intros y. unfold str_in in *. simpl. by rewrite H.
Qed.

Lemma str_in_app x (l1 l2 : list str) : str_in x (l1 ++ l2) = str_in x l1 || str_in x l2.
Proof. unfold str_in. apply existsb_app. Qed.

Lemma str_eqb_sym a b : str_eqb a b = str_eqb b a.
Proof.
  destruct (str_eqb b a) eqn:E.
  - apply str_eqb_eq in E as ->. apply str_eqb_refl.
  - apply str_eqb_ne. intros ->. by rewrite str_eqb_refl in E.
Qed.

(** Keys of a table built by successive assignments: the keys already there,
    then the new ones in order of first assignment. *)
Lemma keys_foldl_dict_set {V X} (key : X -> str) (val : dict V -> X -> V)
    (l : list X) (d : dict V) :
  keys (foldl (fun d x => dict_set d (key x) (val d x)) d l) =
  keys d ++ first_seen (keys d) (map key l).
Proof.
  revert d. induction l as [|x l IH]; intros d; simpl.
  - by rewrite app_nil_r.
  - rewrite IH, keys_dict_set. destruct (str_in (key x) (keys d)) eqn:E; [done|].
    rewrite <- app_assoc. simpl. do 2 f_equal. apply first_seen_ext.
    intros y. rewrite str_in_app. unfold str_in. simpl.
    rewrite orb_false_r, orb_comm. done.
Qed.

Lemma first_seen_NoDup seen l :
  NoDup (first_seen seen l) /\ forall x, x ∈ first_seen seen l -> x ∉ seen.
Proof.
  revert seen. induction l as [|x l IH]; intros seen; simpl.
  - split; [constructor|]. intros y Hy. by apply elem_of_nil in Hy.
  - destruct (str_in x seen) eqn:E; [apply IH|].
    destruct (IH (x :: seen)) as [Hnd Hnot]. split.
    + constructor; [|done]. intros Hx. apply Hnot in Hx.
      apply Hx. by left.
    + intros y Hy. apply elem_of_cons in Hy as [->|Hy].
      * intros Hin. apply str_in_elem_of in Hin. congruence.
      * apply Hnot in Hy. intros Hin. apply Hy. by right.
Qed.

Lemma first_seen_elem seen l x :
  x ∈ first_seen seen l <-> x ∈ l /\ x ∉ seen.
Proof.
  revert seen. induction l as [|y l IH]; intros seen; simpl.
  - split; [intros H; by apply elem_of_nil in H|].
    intros [H _]. by apply elem_of_nil in H.
  - destruct (str_in y seen) eqn:E.
    + rewrite IH, elem_of_cons. apply str_in_elem_of in E.
      split; [tauto|]. intros [[->|H] Hs]; [done|tauto].
    + assert (Hy : y ∉ seen).
      { intros H. apply str_in_elem_of in H. congruence. }
      rewrite !elem_of_cons, IH, not_elem_of_cons.
      split; [intros [->|(H1 & H2 & H3)]; tauto|].
      intros [[->|H] Hs]; [tauto|].
      destruct (decide (x = y)) as [->|Hne]; tauto.
Qed.

(** ** Shuffle and reduce *)

Lemma values_of_cons k kv mapped :
  values_of k (kv :: mapped) =
  if str_eqb kv.1 k then kv.2 :: values_of k mapped else values_of k mapped.
Proof.
  unfold values_of. rewrite filter_cons. destruct (decide (kv.1 = k)) as [->|Hne].
  - by rewrite str_eqb_refl.
  - by rewrite str_eqb_ne.
Qed.

Lemma shuffle_fold_get mapped (d : dict (list Z)) k :
  dict_get (foldl shuffle_step d mapped) k =
  match dict_get d k, values_of k mapped with
  | None, [] => None
  | o, vs => Some (default [] o ++ vs)
  end.
Proof.
  revert d. induction mapped as [|[k1 v] mapped IH]; intros d.
  - simpl. destruct (dict_get d k); simpl; [by rewrite app_nil_r|done].
  - cbn [foldl]. rewrite IH, values_of_cons. unfold shuffle_step. simpl.
    destruct (str_eqb k1 k) eqn:E.
    + apply str_eqb_eq in E as ->. rewrite dict_get_set_eq. simpl.
      rewrite <- app_assoc. simpl. by destruct (dict_get d k).
    + rewrite dict_get_set_ne; [done|]. intros ->. by rewrite str_eqb_refl in E.
Qed.

Lemma keys_shuffle_function mapped :
  keys (shuffle_function mapped) = first_seen [] (map fst mapped).
Proof.
  unfold shuffle_function, shuffle_step.
  apply (keys_foldl_dict_set fst
           (fun d kv => default [] (dict_get d kv.1) ++ [kv.2]) mapped []).
Qed.

(** Shuffle groups by key: a key that occurs among the pairs is bound to the
    list of its values in their order of arrival, any other key is missing;
    the keys are distinct and stand in the order of their first
    occurrence. *)
Theorem shuffle_function_groups (mapped : list (str * Z)) (k : str) :
  dict_get (shuffle_function mapped) k =
    match values_of k mapped with
    | [] => None
    | vs => Some vs
    end /\
  keys (shuffle_function mapped) = first_seen [] (map fst mapped) /\
  NoDup (keys (shuffle_function mapped)).
Proof.
  split; [|split; [apply keys_shuffle_function|]].
  - unfold shuffle_function. rewrite shuffle_fold_get. simpl.
    by destruct (values_of k mapped).
  - rewrite keys_shuffle_function. apply first_seen_NoDup.
Qed.

Lemma reduce_fold_fresh (shuffled : dict (list Z)) (acc : dict Z) :
  NoDup (keys acc ++ keys shuffled) ->
  foldl (fun reduced kv => dict_set reduced kv.1 (sum kv.2)) acc shuffled =
  acc ++ sum_lists shuffled.
Proof.
  revert acc. induction shuffled as [|[k vs] shuffled IH]; intros acc Hnd; simpl.
  - by rewrite app_nil_r.
  - assert (Hk : k ∉ keys acc).
    { apply NoDup_app in Hnd as (_ & Hdis & _). intros Hin.
      apply (Hdis k Hin). by left. }
    rewrite dict_set_fresh by done. rewrite IH.
    + by rewrite <- app_assoc.
    + unfold keys in *. rewrite map_app, <- app_assoc. exact Hnd.
Qed.

(** Reduce on a sequence with distinct keys: the same keys in the same
    order, each with the sum of its values. *)
Theorem reduce_function_sums (shuffled : dict (list Z)) :
  NoDup (keys shuffled) ->
  reduce_function shuffled = map (fun kv => (kv.1, sum kv.2)) shuffled.
Proof. intros H. apply (reduce_fold_fresh shuffled []). exact H. Qed.

Lemma reduce_function_sums_witness :
  reduce_function [(lit "a", [1; 1]); (lit "b", [1])] =
  map (fun kv => (kv.1, sum kv.2)) [(lit "a", [1; 1]); (lit "b", [1])].
Proof.
  apply (reduce_function_sums [(lit "a", [1; 1]); (lit "b", [1])]).
  apply (bool_decide_unpack _). vm_compute. exact I.
Defined.

(** ** Shuffle then reduce is counting *)

Lemma sum_lists_dict_set (d : dict (list Z)) k vs :
  sum_lists (dict_set d k vs) = dict_set (sum_lists d) k (sum vs).
Proof.
  induction d as [|[k' v'] d IH]; simpl; [done|].
  destruct (str_eqb k' k); simpl; [done|]. by rewrite IH.
Qed.

Lemma dict_get_sum_lists (d : dict (list Z)) k :
  dict_get (sum_lists d) k = sum <$> dict_get d k.
Proof.
  induction d as [|[k' v'] d IH]; simpl; [done|].
  destruct (str_eqb k' k); simpl; done.
Qed.

Lemma sum_lists_shuffle_step d kv :
  sum_lists (shuffle_step d kv) = counter_add (sum_lists d) kv.1 kv.2.
Proof.
  unfold shuffle_step, counter_add, counter_get.
  rewrite sum_lists_dict_set, dict_get_sum_lists, sum_app.
  destruct (dict_get d kv.1); simpl; unfold sum; simpl; done.
Qed.

Lemma sum_lists_shuffle_fold mapped d :
  sum_lists (foldl shuffle_step d mapped) =
  foldl (fun c kv => counter_add c kv.1 kv.2) (sum_lists d) mapped.
Proof.
  revert d. induction mapped as [|kv mapped IH]; intros d; simpl; [done|].
  by rewrite IH, sum_lists_shuffle_step.
Qed.

Lemma reduce_shuffle_count_pairs mapped :
  reduce_function (shuffle_function mapped) = count_pairs mapped.
Proof.
  unfold reduce_function. rewrite (reduce_fold_fresh _ []).
  - simpl. unfold shuffle_function. by rewrite sum_lists_shuffle_fold.
  - simpl. rewrite keys_shuffle_function. apply first_seen_NoDup.
Qed.

(** Shuffle followed by reduce is the table obtained by counting the pairs
    one at a time, with the keys in the same order. *)
Theorem reduce_shuffle_counts (mapped : list (str * Z)) :
  reduce_function (shuffle_function mapped) = count_pairs mapped.
Proof. apply reduce_shuffle_count_pairs. Qed.

(** ** Counting pairs *)

Lemma counter_get_add (c : Counter) k v k' :
  counter_get (counter_add c k v) k' =
  counter_get c k' + (if str_eqb k k' then v else 0).
Proof.
  unfold counter_add, counter_get at 1 3.
  destruct (str_eqb k k') eqn:E.
  - apply str_eqb_eq in E as ->. rewrite dict_get_set_eq. simpl.
    unfold counter_get. lia.
  - rewrite dict_get_set_ne; [lia|]. intros ->. by rewrite str_eqb_refl in E.
Qed.

Lemma counter_get_fold pairs (c : Counter) k :
  counter_get (foldl (fun c kv => counter_add c kv.1 kv.2) c pairs) k =
  counter_get c k + sum (values_of k pairs).
Proof.
  revert c. induction pairs as [|kv pairs IH]; intros c.
  - simpl. unfold values_of, sum. simpl. lia.
  - cbn [foldl]. rewrite IH, counter_get_add, values_of_cons.
    destruct (str_eqb kv.1 k); [rewrite sum_cons|]; lia.
Qed.

Lemma values_of_ones k words :
  sum (values_of k (ones words)) = occurrences k words.
Proof.
  unfold occurrences, ones. induction words as [|w words IH].
  - done.
  - cbn [map]. rewrite values_of_cons, filter_cons. simpl.
    destruct (decide (w = k)) as [->|Hne].
    + rewrite str_eqb_refl, sum_cons, IH. unfold len. simpl. lia.
    + by rewrite str_eqb_ne.
Qed.

Lemma sum_values_count_fold pairs (c : Counter) :
  sum (values (foldl (fun c kv => counter_add c kv.1 kv.2) c pairs)) =
  sum (values c) + sum (map snd pairs).
Proof.
  revert c. induction pairs as [|kv pairs IH]; intros c; simpl.
  - unfold sum at 3. simpl. lia.
  - rewrite IH, sum_values_counter_add, sum_cons. lia.
Qed.

Lemma keys_count_pairs pairs :
  keys (count_pairs pairs) = first_seen [] (map fst pairs).
Proof.
  apply (keys_foldl_dict_set fst (fun d kv => counter_get d kv.1 + kv.2) pairs []).
Qed.

(** Counting pairs one at a time: the count of a key is the sum of the
    values paired with it, the keys are distinct and in order of first
    occurrence, and the counts sum to the sum of all values. *)
Theorem count_pairs_table (pairs : list (str * Z)) (k : str) :
  counter_get (count_pairs pairs) k = sum (values_of k pairs) /\
  keys (count_pairs pairs) = first_seen [] (map fst pairs) /\
  NoDup (keys (count_pairs pairs)) /\
  sum (values (count_pairs pairs)) = sum (map snd pairs).
Proof.
  split; [|split; [|split]].
  - unfold count_pairs. rewrite counter_get_fold. done.
  - apply keys_count_pairs.
  - rewrite keys_count_pairs. apply first_seen_NoDup.
  - unfold count_pairs. rewrite sum_values_count_fold. done.
Qed.

Lemma merged_table_count_pairs text workers :
  merged_table text workers = count_pairs (ones (raw_words text workers)).
Proof.
  unfold merged_table. rewrite reduce_shuffle_count_pairs, mapped_all_raw_words. done.
Qed.

Lemma sum_map_snd_ones words : sum (map snd (ones words)) = len words.
Proof.
  unfold ones, len. induction words as [|w words IH]; [done|].
  simpl. rewrite sum_cons, IH. lia.
Qed.

Lemma map_fst_ones words : map fst (ones words) = words.
Proof. unfold ones. rewrite map_map. simpl. apply map_id. Qed.

(** The merged table counts the raw words: the count of a word is the number
    of times the mappers saw it, the words stand in the order in which they
    were first seen, a word never seen has no entry, and the counts add up to
    the number of raw words. *)
Theorem merged_table_word_counts (text : str) (workers : Z) (word : str) :
  counter_get (merged_table text workers) word =
    occurrences word (raw_words text workers) /\
  keys (merged_table text workers) = first_seen [] (raw_words text workers) /\
  (dict_get (merged_table text workers) word = None <->
   word ∉ raw_words text workers) /\
  sum (values (merged_table text workers)) = len (raw_words text workers).
Proof.
  rewrite merged_table_count_pairs.
  pose proof (counter_get_fold (ones (raw_words text workers)) [] word) as Hget.
  fold (count_pairs (ones (raw_words text workers))) in Hget.
  pose proof (keys_count_pairs (ones (raw_words text workers))) as Hkeys.
  pose proof (sum_values_count_fold (ones (raw_words text workers)) []) as Hsum.
  fold (count_pairs (ones (raw_words text workers))) in Hsum.
  rewrite map_fst_ones in Hkeys.
  split; [|split; [|split]].
  - rewrite Hget. apply values_of_ones.
  - exact Hkeys.
  - rewrite dict_get_None_keys, Hkeys, first_seen_elem.
    split; [|tauto]. intros Hnot Hin. apply Hnot. split; [done|].
    apply not_elem_of_nil.
  - rewrite Hsum. apply sum_map_snd_ones.
Qed.

(** ** The normaliser is counting of tokens *)

Lemma foldl_append {A B} (f : A -> B -> A) a (l1 l2 : list B) :
  foldl f a (l1 ++ l2) = foldl f (foldl f a l1) l2.
Proof. revert a. induction l1 as [|x l1 IH]; intros a; simpl; [done|apply IH]. Qed.

Lemma normalize_tokens_fold min_len stop cnt toks (c : Counter) :
  foldl (fun normalized t =>
           if keeps min_len stop t then counter_add normalized t cnt
           else normalized) c toks =
  foldl (fun c kv => counter_add c kv.1 kv.2) c
        (map (fun t => (t, cnt)) (List.filter (keeps min_len stop) toks)).
Proof.
  revert c. induction toks as [|t toks IH]; intros c; simpl; [done|].
  destruct (keeps min_len stop t); simpl; apply IH.
Qed.

Lemma normalize_fold_pairs min_len stop pairs (c : Counter) :
  foldl (normalize_word min_len stop) c pairs =
  foldl (fun c kv => counter_add c kv.1 kv.2) c (token_pairs min_len stop pairs).
Proof.
  revert c. induction pairs as [|wc pairs IH]; intros c; [done|].
  unfold token_pairs. cbn [foldl map concat]. rewrite foldl_append.
  fold (token_pairs min_len stop pairs). rewrite <- IH. f_equal.
  apply normalize_tokens_fold.
Qed.

Lemma normalize_count_pairs reduced min_len use_stopwords :
  normalize reduced min_len use_stopwords =
  count_pairs (token_pairs min_len (stop_set use_stopwords) reduced).
Proof. apply normalize_fold_pairs. Qed.

Lemma counter_get_missing (c : Counter) k : k ∉ keys c -> counter_get c k = 0.
Proof.
  intros H. apply dict_get_None_keys in H. unfold counter_get. by rewrite H.
Qed.

(** Two tables with the same distinct keys in the same order and the same
    counts are equal. *)
Lemma counter_ext (c1 c2 : Counter) :
  keys c1 = keys c2 -> NoDup (keys c1) ->
  (forall k, counter_get c1 k = counter_get c2 k) -> c1 = c2.
Proof.
  revert c2. induction c1 as [|[k v] c1 IH]; intros [|[k' v'] c2] Hk Hnd Hget;
    try done.
  simpl in Hk. injection Hk as <- Hk. apply NoDup_cons in Hnd as [Hfresh Hnd].
  pose proof (Hget k) as Hv. unfold counter_get in Hv. simpl in Hv.
  rewrite str_eqb_refl in Hv. simpl in Hv. subst v'. f_equal.
  apply IH; [done|done|]. intros k1.
  destruct (decide (k = k1)) as [<-|Hne].
  - rewrite !counter_get_missing; [done|by rewrite <- Hk|done].
  - specialize (Hget k1). unfold counter_get in *. simpl in Hget.
    by rewrite str_eqb_ne in Hget.
Qed.

Lemma str_in_cons x y (l : list str) : str_in x (y :: l) = str_eqb x y || str_in x l.
Proof. done. Qed.

Lemma first_seen_app seen a b :
  first_seen seen (a ++ b) = first_seen seen a ++ first_seen (a ++ seen) b.
Proof.
  revert seen. induction a as [|y a IH]; intros seen; simpl; [done|].
  destruct (str_in y seen) eqn:E.
  - rewrite IH. f_equal. apply first_seen_ext. intros x.
    rewrite str_in_cons, !str_in_app.
    destruct (str_eqb x y) eqn:Exy; [|done].
    apply str_eqb_eq in Exy as ->. by rewrite E, orb_true_r.
  - rewrite IH. simpl. do 2 f_equal. apply first_seen_ext. intros x.
    rewrite !str_in_cons, !str_in_app, str_in_cons.
    destruct (str_eqb x y), (str_in x a), (str_in x seen); done.
Qed.

Lemma first_seen_all_seen seen a :
  (forall x, x ∈ a -> str_in x seen = true) -> first_seen seen a = [].
Proof.
  induction a as [|y a IH]; intros H; simpl; [done|].
  rewrite (H y) by (by left). apply IH. intros x Hx. apply H. by right.
Qed.

Lemma first_seen_concat_map (F : str -> list str) l :
  forall sw st,
  (forall w t, str_in w sw = true -> t ∈ F w -> str_in t st = true) ->
  first_seen st (concat (map F (first_seen sw l))) =
  first_seen st (concat (map F l)).
Proof.
  induction l as [|x l IH]; intros sw st H; simpl; [done|].
  destruct (str_in x sw) eqn:E.
  - rewrite (IH sw st H), first_seen_app.
    rewrite (first_seen_all_seen st (F x)) by (intros t Ht; exact (H x t E Ht)).
    simpl. apply first_seen_ext. intros y. rewrite str_in_app.
    destruct (str_in y (F x)) eqn:Ey; [|done]. simpl.
    apply (H x); [done|]. by apply str_in_elem_of.
  - cbn [map concat]. rewrite !first_seen_app. f_equal. apply IH.
    intros w t Hw Ht. rewrite str_in_app. rewrite str_in_cons in Hw.
    apply orb_true_iff in Hw as [Hw|Hw].
    + apply str_eqb_eq in Hw as ->. apply str_in_elem_of in Ht. by rewrite Ht.
    + rewrite (H w t Hw Ht). apply orb_true_r.
Qed.

Lemma map_fst_token_pairs min_len stop pairs :
  map fst (token_pairs min_len stop pairs) =
  concat (map (kept min_len stop) (map fst pairs)).
Proof.
  unfold token_pairs. induction pairs as [|wc pairs IH]; [done|].
  cbn [map concat]. rewrite map_app, IH, map_map. simpl. by rewrite map_id.
Qed.

Lemma values_of_app k a b : values_of k (a ++ b) = values_of k a ++ values_of k b.
Proof. unfold values_of. by rewrite filter_app, map_app. Qed.

Lemma sum_values_of_tokens k cnt toks :
  sum (values_of k (map (fun t => (t, cnt)) toks)) = cnt * occurrences k toks.
Proof.
  unfold occurrences. induction toks as [|t toks IH]; simpl.
  - unfold values_of, sum, len. simpl. lia.
  - rewrite values_of_cons, filter_cons. simpl.
    destruct (decide (t = k)) as [->|Hne].
    + rewrite str_eqb_refl, sum_cons, IH. unfold len. simpl. lia.
    + by rewrite str_eqb_ne.
Qed.

Lemma sum_values_of_token_pairs min_len stop k pairs :
  sum (values_of k (token_pairs min_len stop pairs)) =
  weighted (fun w => occurrences k (kept min_len stop w)) pairs.
Proof.
  unfold token_pairs, weighted. induction pairs as [|wc pairs IH].
  - done.
  - cbn [map concat]. rewrite values_of_app, sum_app, sum_cons, IH.
    by rewrite sum_values_of_tokens.
Qed.

Lemma weighted_dict_set g (d : Counter) k v :
  weighted g (dict_set d k v) = weighted g d - counter_get d k * g k + v * g k.
Proof.
  unfold weighted, counter_get. induction d as [|[k' v'] d IH]; simpl.
  - rewrite sum_cons. unfold sum. simpl. lia.
  - destruct (str_eqb k' k) eqn:E; simpl; rewrite !sum_cons; simpl.
    + apply str_eqb_eq in E as ->. lia.
    + rewrite IH. lia.
Qed.

Lemma weighted_count_fold g pairs (c : Counter) :
  weighted g (foldl (fun c kv => counter_add c kv.1 kv.2) c pairs) =
  weighted g c + weighted g pairs.
Proof.
  revert c. induction pairs as [|kv pairs IH]; intros c; cbn [foldl].
  - unfold weighted at 3. unfold sum. simpl. lia.
  - rewrite IH. unfold counter_add. rewrite weighted_dict_set.
    replace (weighted g (kv :: pairs)) with (kv.2 * g kv.1 + weighted g pairs)
      by (unfold weighted; cbn [map]; by rewrite sum_cons).
    lia.
Qed.

Lemma normalize_counted pairs min_len use_stopwords :
  normalize (count_pairs pairs) min_len use_stopwords =
  count_pairs (token_pairs min_len (stop_set use_stopwords) pairs).
Proof.
  rewrite normalize_count_pairs. set (stop := stop_set use_stopwords).
  apply counter_ext.
  - rewrite !keys_count_pairs, !map_fst_token_pairs.
    fold (keys (count_pairs pairs)). rewrite keys_count_pairs.
    apply first_seen_concat_map. intros w t Hw. done.
  - rewrite keys_count_pairs. apply first_seen_NoDup.
  - intros k. unfold count_pairs at 1 3. rewrite !counter_get_fold.
    rewrite !sum_values_of_token_pairs. unfold count_pairs.
    rewrite weighted_count_fold. unfold weighted at 1. unfold sum at 1. simpl. lia.
Qed.

(** Normalising a table of counted words gives the table obtained by
    counting, for every pair, the kept tokens of its word directly: grouping
    the words first changes neither the counts nor the order of the
    tokens. *)
Theorem normalize_count_pairs_direct (pairs : list (str * Z)) (min_len : Z)
    (use_stopwords : bool) :
  normalize (count_pairs pairs) min_len use_stopwords =
  count_pairs (token_pairs min_len (stop_set use_stopwords) pairs).
Proof. apply normalize_counted. Qed.

Lemma token_pairs_ones min_len stop words :
  token_pairs min_len stop (ones words) =
  ones (List.filter (keeps min_len stop) (concat (map tokenize words))).
Proof.
  unfold token_pairs, ones, kept. induction words as [|w words IH]; [done|].
  cbn [map concat]. rewrite List.filter_app, map_app. simpl in *. by rewrite IH.
Qed.

(** The tokens of all raw words, in order. *)
Lemma pipeline_counts_tokens text workers min_len use_stopwords :
  1 <= workers ->
  map_reduce_parallel text workers min_len use_stopwords =
  Ok (count_pairs (ones (List.filter (keeps min_len (stop_set use_stopwords))
                           (concat (map tokenize (raw_words text workers)))))).
Proof.
  intros Hw. rewrite map_reduce_parallel_ok by done.
  rewrite merged_table_count_pairs, normalize_counted.
  by rewrite token_pairs_ones.
Qed.

(** ** Tokens of the words and tokens of the text *)

Lemma runs_nil p : runs p [] = [].
Proof. done. Qed.

Lemma runs_refine (p q : char -> bool) s cur :
  (forall c, p c = false -> q c = false) ->
  concat (map (runs q) (runs_from p cur s)) = runs q (rev cur ++ s).
Proof.
  intros Hpq. revert cur. induction s as [|c s IH]; intros cur.
  - cbn [runs_from]. rewrite app_nil_r. destruct cur as [|x cur]; [done|].
    unfold flush. cbn [map concat]. by rewrite app_nil_r.
  - cbn [runs_from]. destruct (p c) eqn:E.
    + rewrite IH. simpl. by rewrite <- app_assoc.
    + rewrite map_app, concat_app, (IH []). simpl.
      unfold runs at 3. rewrite runs_from_sep by (by apply Hpq).
      f_equal. destruct cur as [|x cur]; [done|].
      unfold flush. cbn [map concat]. by rewrite app_nil_r.
Qed.

Lemma space_not_word_char c : isspace c = true -> is_word_char c = false.
Proof.
  unfold isspace, is_word_char, in_range.
  rewrite ?orb_true_iff, ?andb_true_iff, ?orb_false_iff, ?andb_false_iff,
    ?N.leb_le, ?N.leb_gt, ?N.eqb_eq, ?N.eqb_neq.
  lia.
Qed.

(** Tokenizing word by word is tokenizing the text: whitespace is not part
    of any token. *)
Lemma tokenize_split text :
  concat (map tokenize (split text)) = tokenize text.
Proof.
  unfold tokenize, finditer_WORD_RE, split.
  pose proof (runs_refine (fun c => negb (isspace c)) is_word_char text []) as H.
  simpl in H. rewrite <- H.
  - unfold runs.
    generalize (runs_from (fun c => negb (isspace c)) [] text) as ws.
    induction ws as [|w ws IH]; [done|].
    cbn [map concat]. by rewrite map_app, IH.
  - intros c Hc. apply space_not_word_char. by apply negb_false_iff.
Qed.

Lemma raw_words_aligned text workers :
  boundaries_on_whitespace (chunk_text text workers) = true ->
  raw_words text workers = split text.
Proof.
  intros H. unfold raw_words. by rewrite (split_concat _ H), chunk_text_concat.
Qed.

(** With at least one worker and every chunk boundary on whitespace, the
    returned table is the count of the kept tokens of the text: each token
    [t] has the number of its occurrences among them, and the tokens stand
    in the order of their first occurrence in the text. *)
Theorem word_frequencies (text : str) (workers min_len : Z)
    (use_stopwords : bool) (t : str) :
  1 <= workers ->
  boundaries_on_whitespace (chunk_text text workers) = true ->
  exists freq,
    map_reduce_parallel text workers min_len use_stopwords = Ok freq /\
    counter_get freq t =
      occurrences t (List.filter (keeps min_len (stop_set use_stopwords))
                       (tokenize text)) /\
    keys freq =
      first_seen [] (List.filter (keeps min_len (stop_set use_stopwords))
                       (tokenize text)).
Proof.
  intros Hw Hb. eexists. split; [by apply pipeline_counts_tokens|].
  rewrite (raw_words_aligned _ _ Hb), tokenize_split.
  set (toks := List.filter _ _). split.
  - unfold count_pairs. rewrite counter_get_fold. unfold counter_get. simpl.
    apply values_of_ones.
  - rewrite keys_count_pairs. by rewrite map_fst_ones.
Qed.

Lemma word_frequencies_witness :
  exists freq,
    map_reduce_parallel (lit "to be or not to be") 2 1 true = Ok freq /\
    counter_get freq (lit "be") =
      occurrences (lit "be") (List.filter (keeps 1 (stop_set true))
                       (tokenize (lit "to be or not to be"))) /\
    keys freq =
      first_seen [] (List.filter (keeps 1 (stop_set true))
                       (tokenize (lit "to be or not to be"))).
Proof.
  apply (word_frequencies (lit "to be or not to be") 2 1 true (lit "be"));
    [lia|reflexivity].
Defined.

(** ** Filters only delete *)

Section KeyFilter.
Variable P : str -> bool.

Local Abbreviation on_key := (fun kv : str * Z => P kv.1).

Lemma filter_dict_set (d : Counter) k v :
  List.filter on_key (dict_set d k v) =
  if P k then dict_set (List.filter on_key d) k v else List.filter on_key d.
Proof.
  induction d as [|[k' v'] d IH]; simpl.
  - by destruct (P k).
  - destruct (str_eqb k' k) eqn:E.
    + apply str_eqb_eq in E as ->. simpl. destruct (P k); simpl; [|done].
      by rewrite str_eqb_refl.
    + simpl. rewrite IH. destruct (P k'), (P k); simpl; try done.
      by rewrite E.
Qed.

Lemma dict_get_filter (d : Counter) k :
  P k = true -> dict_get (List.filter on_key d) k = dict_get d k.
Proof.
  intros Hk. induction d as [|[k' v'] d IH]; simpl; [done|].
  destruct (str_eqb k' k) eqn:E.
  - apply str_eqb_eq in E as ->. rewrite Hk. simpl. by rewrite str_eqb_refl.
  - destruct (P k'); simpl; [by rewrite E|done].
Qed.

Lemma filter_count_fold pairs (c : Counter) :
  List.filter on_key (foldl (fun c kv => counter_add c kv.1 kv.2) c pairs) =
  foldl (fun c kv => counter_add c kv.1 kv.2) (List.filter on_key c)
        (List.filter on_key pairs).
Proof.
  revert c. induction pairs as [|[k v] pairs IH]; intros c; [done|].
  cbn [foldl]. rewrite IH.
  change (List.filter on_key ((k, v) :: pairs))
    with (if P k then (k, v) :: List.filter on_key pairs
          else List.filter on_key pairs).
  change ((k, v).1) with k. change ((k, v).2) with v.
  change (counter_add c k v) with (dict_set c k (counter_get c k + v)).
  rewrite filter_dict_set.
  destruct (P k) eqn:E; [|done].
  cbn [foldl]. change ((k, v).1) with k. change ((k, v).2) with v.
  unfold counter_add at 3. unfold counter_get. by rewrite dict_get_filter.
Qed.
End KeyFilter.

Lemma keeps_all t : keeps 0 [] t = true.
Proof. unfold keeps. simpl. rewrite andb_true_r. apply Z.leb_le, len_nonneg. Qed.

Lemma filter_all_true {A} (f : A -> bool) l :
  (forall x, f x = true) -> List.filter f l = l.
Proof.
  intros H. induction l as [|x l IH]; simpl; [done|]. by rewrite H, IH.
Qed.

Lemma filter_token_pairs min_len stop pairs :
  List.filter (fun kv : str * Z => keeps min_len stop kv.1) (token_pairs 0 [] pairs) =
  token_pairs min_len stop pairs.
Proof.
  unfold token_pairs, kept. induction pairs as [|wc pairs IH]; [done|].
  cbn [map concat]. rewrite List.filter_app, IH. f_equal.
  rewrite (filter_all_true (keeps 0 [])) by apply keeps_all.
  generalize (tokenize wc.1) as toks. induction toks as [|t toks IHt]; [done|].
  simpl. destruct (keeps min_len stop t); simpl; by rewrite IHt.
Qed.

(** The length and stopword filters only delete entries: the table for any
    setting is the unfiltered table ([min_len = 0], no stopwords) with the
    entries that fail the test removed, the others keeping their counts and
    their order. *)
Theorem normalize_filters (reduced : dict Z) (min_len : Z) (use_stopwords : bool) :
  normalize reduced min_len use_stopwords =
  List.filter (fun kv => keeps min_len (stop_set use_stopwords) kv.1)
    (normalize reduced 0 false).
Proof.
  rewrite !normalize_count_pairs. unfold count_pairs.
  rewrite filter_count_fold. simpl. by rewrite filter_token_pairs.
Qed.

(** ** Normalising twice *)

Lemma tokenize_clean_self t : clean_token t -> tokenize t = [t].
Proof.
  intros (Hne & Hlow & Hfix). unfold tokenize, finditer_WORD_RE.
  destruct (is_lower_word_chars _ Hlow) as [Hw _].
  rewrite runs_whole by done. simpl. by rewrite Hfix.
Qed.

Lemma count_fold_fresh (pairs : list (str * Z)) (acc : Counter) :
  NoDup (keys acc ++ keys pairs) ->
  foldl (fun c kv => counter_add c kv.1 kv.2) acc pairs = acc ++ pairs.
Proof.
  revert acc. induction pairs as [|[k v] pairs IH]; intros acc Hnd.
  - by rewrite app_nil_r.
  - cbn [foldl]. change ((k, v).1) with k. change ((k, v).2) with v.
    assert (Hk : k ∉ keys acc).
    { apply NoDup_app in Hnd as (_ & Hdis & _). intros Hin.
      apply (Hdis k Hin). by left. }
    unfold counter_add. rewrite dict_set_fresh, counter_get_missing by done.
    rewrite IH.
    + by rewrite <- app_assoc.
    + unfold keys in *. rewrite map_app, <- app_assoc. exact Hnd.
Qed.

Lemma token_pairs_kept min_len stop (d : list (str * Z)) :
  Forall (fun kv : str * Z => clean_token kv.1 /\ keeps min_len stop kv.1 = true) d ->
  token_pairs min_len stop d = d.
Proof.
  unfold token_pairs, kept. induction 1 as [|[k v] d [Hc Hk] Hd IH]; [done|].
  cbn [map concat]. rewrite IH. simpl in *.
  rewrite (tokenize_clean_self k Hc). simpl. by rewrite Hk.
Qed.

Lemma keys_normalize_kept reduced min_len use_stopwords :
  Forall (fun kv : str * Z =>
            clean_token kv.1 /\ keeps min_len (stop_set use_stopwords) kv.1 = true)
         (normalize reduced min_len use_stopwords).
Proof.
  set (stop := stop_set use_stopwords).
  assert (Hk : Forall (fun k => clean_token k /\ keeps min_len stop k = true)
                 (keys (normalize reduced min_len use_stopwords))).
  { rewrite normalize_count_pairs, keys_count_pairs, map_fst_token_pairs.
    fold stop. apply Forall_forall. intros k Hin.
    apply first_seen_elem in Hin as [Hin _].
    apply list_elem_of_In, in_concat in Hin as (toks & Htoks & Hin).
    apply in_map_iff in Htoks as (w & <- & _).
    unfold kept in Hin. apply filter_In in Hin as [Hin Hkeep].
    split; [|done].
    pose proof (tokenize_clean w) as Hc. rewrite Forall_forall in Hc.
    apply Hc. by apply list_elem_of_In. }
  unfold keys in Hk. by apply Forall_map in Hk.
Qed.

(** The keys of the normalised table are distinct, and normalising it again
    with the same settings changes nothing. *)
Theorem normalize_idempotent (reduced : dict Z) (min_len : Z) (use_stopwords : bool) :
  NoDup (keys (normalize reduced min_len use_stopwords)) /\
  normalize (normalize reduced min_len use_stopwords) min_len use_stopwords =
  normalize reduced min_len use_stopwords.
Proof.
  assert (Hnd : NoDup (keys (normalize reduced min_len use_stopwords))).
  { rewrite normalize_count_pairs, keys_count_pairs. apply first_seen_NoDup. }
  split; [done|].
  rewrite (normalize_count_pairs (normalize reduced min_len use_stopwords)).
  rewrite token_pairs_kept by apply keys_normalize_kept.
  unfold count_pairs. by rewrite count_fold_fresh.
Qed.

(** ** Texts without tokens *)

Lemma tokenize_no_word_chars w :
  Forall (fun c => is_word_char c = false) w -> tokenize w = [].
Proof.
  unfold tokenize, finditer_WORD_RE, runs.
  induction 1 as [|c w Hc Hw IH]; [done|]. simpl. by rewrite Hc.
Qed.

Lemma Forall_concat_inv {A} (P : A -> Prop) (ls : list (list A)) :
  Forall P (concat ls) -> Forall (Forall P) ls.
Proof.
  induction ls as [|l ls IH]; simpl; [constructor|].
  rewrite Forall_app. intros [Hl Hls]. constructor; [done|by apply IH].
Qed.

Lemma Forall_list_filter {A} (P : A -> Prop) (f : A -> bool) l :
  Forall P l -> Forall P (List.filter f l).
Proof.
  induction 1 as [|x l Hx Hl IH]; simpl; [constructor|].
  destruct (f x); [by constructor|done].
Qed.

Lemma raw_words_chars (P : char -> Prop) text workers :
  Forall P text -> Forall (Forall P) (raw_words text workers).
Proof.
  intros H. unfold raw_words. apply Forall_concat, Forall_forall.
  intros ws Hws. apply list_elem_of_In, in_map_iff in Hws as (chunk & <- & Hc).
  apply Forall_concat_inv. unfold split, runs. rewrite runs_from_concat. simpl.
  apply Forall_list_filter.
  rewrite <- (chunk_text_concat text workers) in H.
  apply Forall_concat_inv in H. rewrite Forall_forall in H.
  apply H. by apply list_elem_of_In.
Qed.

(** A text without any character of the class of [WORD_RE] (empty, only
    whitespace, only punctuation) gives, with at least one worker, the empty
    table and the empty top-N list. *)
Theorem no_word_characters (text : str) (workers min_len : Z)
    (use_stopwords : bool) (top_n : Z) :
  1 <= workers ->
  Forall (fun c => is_word_char c = false) text ->
  run_pipeline text workers min_len use_stopwords top_n = Ok ([], []).
Proof.
  intros Hw Hnone. unfold run_pipeline.
  rewrite pipeline_counts_tokens by done.
  assert (Ht : concat (map tokenize (raw_words text workers)) = []).
  { pose proof (raw_words_chars _ text workers Hnone) as H.
    induction H as [|w ws Hw' Hws IH]; [done|].
    cbn [map concat]. by rewrite tokenize_no_word_chars, IH. }
  rewrite Ht. simpl. unfold most_common. simpl. by rewrite take_nil.
Qed.

Lemma no_word_characters_witness :
  run_pipeline (lit " -- !? ... ") 4 1 true 10 = Ok ([], []).
Proof.
  apply (no_word_characters (lit " -- !? ... ") 4 1 true 10); [lia|].
  repeat constructor.
Defined.

(** ** What is drawn and what is printed *)

Lemma sorted_desc_length items : length (sorted_desc items) = length items.
Proof. apply Permutation_length, sorted_desc_perm. Qed.

Lemma StronglySorted_map_snd (l : list (str * Z)) :
  StronglySorted count_ge l -> StronglySorted Z.ge (map snd l).
Proof.
  induction 1 as [|x l Hl IH Hx]; simpl; constructor; [done|].
  apply Forall_map. eapply Forall_impl; [exact Hx|].
  unfold count_ge. intros y Hy. simpl. lia.
Qed.

(** The chart: nothing is drawn exactly when the table is empty or
    [top_n <= 0]; otherwise there are [min top_n (len freq)] labels and as
    many bars, the bars do not increase from first to last, and no count of
    the table exceeds the first bar. *)
Theorem visualize_top_words_bars (freq : Counter) (top_n : Z) :
  match visualize_top_words freq top_n with
  | None => freq = [] \/ top_n <= 0
  | Some (words, counts) =>
      freq <> [] /\ 0 < top_n /\
      len words = Z.min top_n (len freq) /\
      len counts = len words /\
      StronglySorted Z.ge counts /\
      match counts with
      | [] => False
      | c :: _ => Forall (fun kv : str * Z => kv.2 <= c) freq
      end
  end.
Proof.
  unfold visualize_top_words, most_common.
  pose proof (sorted_desc_sorted freq) as Hs.
  pose proof (sorted_desc_perm freq) as Hp.
  pose proof (sorted_desc_length freq) as Hlen.
  destruct (take (Z.to_nat top_n) (sorted_desc freq)) as [|x top] eqn:E.
  - apply (f_equal length) in E. rewrite length_take in E. simpl in E.
    destruct freq; [by left|]. right. simpl in *. lia.
  - pose proof (f_equal length E) as El. rewrite length_take in El. simpl in El.
    split; [intros ->; simpl in *; lia|]. split; [lia|].
    unfold len. rewrite !length_map. simpl. split; [lia|]. split; [done|].
    rewrite <- (take_drop (Z.to_nat top_n) (sorted_desc freq)), E in Hs.
    split.
    + apply StronglySorted_app_1_l in Hs. by apply (StronglySorted_map_snd (x :: top)).
    + simpl in Hs. apply StronglySorted_inv in Hs as [_ Hx].
      rewrite <- Hp, <- (take_drop (Z.to_nat top_n) (sorted_desc freq)), E.
      simpl. constructor; [lia|].
      eapply Forall_impl; [exact Hx|]. unfold count_ge. intros y Hy. exact Hy.
Qed.

Lemma first_seen_length seen l : (length (first_seen seen l) <= length l)%nat.
Proof.
  revert seen. induction l as [|x l IH]; intros seen; simpl; [done|].
  destruct (str_in x seen); [specialize (IH seen)|specialize (IH (x :: seen))];
    simpl; lia.
Qed.

(** The summary of a run: the number of unique words is the number of
    distinct kept tokens of the raw words, the number of tokens is the
    number of all kept tokens, and so the first never exceeds the second. *)
Theorem summary_counts (text : str) (workers min_len : Z) (use_stopwords : bool)
    (freq : Counter) :
  map_reduce_parallel text workers min_len use_stopwords = Ok freq ->
  summary freq =
    (len (first_seen [] (List.filter (keeps min_len (stop_set use_stopwords))
                           (concat (map tokenize (raw_words text workers))))),
     len (List.filter (keeps min_len (stop_set use_stopwords))
            (concat (map tokenize (raw_words text workers))))) /\
  (summary freq).1 <= (summary freq).2.
Proof.
  intros Hrun.
  destruct (Z.le_gt_cases workers 0) as [Hw|Hw].
  { rewrite map_reduce_parallel_raise in Hrun by done. discriminate. }
  rewrite pipeline_counts_tokens in Hrun by lia. injection Hrun as <-.
  set (toks := List.filter _ _).
  assert (Hs : summary (count_pairs (ones toks)) =
               (len (first_seen [] toks), len toks)).
  { unfold summary. f_equal.
    - unfold len. f_equal. rewrite <- (length_map fst).
      fold (keys (count_pairs (ones toks))).
      by rewrite keys_count_pairs, map_fst_ones.
    - unfold count_pairs. rewrite sum_values_count_fold.
      rewrite sum_map_snd_ones. unfold values, sum. simpl. lia. }
  split; [exact Hs|]. rewrite Hs. simpl. unfold len.
  pose proof (first_seen_length [] toks). lia.
Qed.

Lemma summary_counts_witness :
  summary [(lit "be", 2); (lit "or", 1); (lit "not", 1)] =
    (len (first_seen [] (List.filter (keeps 1 (stop_set true))
                           (concat (map tokenize (raw_words (lit "to be or not to be") 2))))),
     len (List.filter (keeps 1 (stop_set true))
            (concat (map tokenize (raw_words (lit "to be or not to be") 2))))) /\
  (summary [(lit "be", 2); (lit "or", 1); (lit "not", 1)]).1 <=
  (summary [(lit "be", 2); (lit "or", 1); (lit "not", 1)]).2.
Proof.
  apply (summary_counts (lit "to be or not to be") 2 1 true). reflexivity.
Defined.

(** With at least one worker, whatever the chunking, the returned table is
    the count of the kept tokens of the raw words that the mappers saw: each
    token has the number of its occurrences among them, and the tokens stand
    in the order of their first occurrence. *)
Theorem raw_word_token_counts (text : str) (workers min_len : Z)
    (use_stopwords : bool) (t : str) :
  1 <= workers ->
  exists freq,
    map_reduce_parallel text workers min_len use_stopwords = Ok freq /\
    counter_get freq t =
      occurrences t (List.filter (keeps min_len (stop_set use_stopwords))
                       (concat (map tokenize (raw_words text workers)))) /\
    keys freq =
      first_seen [] (List.filter (keeps min_len (stop_set use_stopwords))
                       (concat (map tokenize (raw_words text workers)))).
Proof.
  intros Hw. eexists. split; [by apply pipeline_counts_tokens|].
  set (toks := List.filter _ _). split.
  - unfold count_pairs. rewrite counter_get_fold. unfold counter_get. simpl.
    apply values_of_ones.
  - rewrite keys_count_pairs. by rewrite map_fst_ones.
Qed.

Lemma raw_word_token_counts_witness :
  exists freq,
    map_reduce_parallel (lit "hello world") 2 1 true = Ok freq /\
    counter_get freq (lit "hello") =
      occurrences (lit "hello") (List.filter (keeps 1 (stop_set true))
                       (concat (map tokenize (raw_words (lit "hello world") 2)))) /\
    keys freq =
      first_seen [] (List.filter (keeps 1 (stop_set true))
                       (concat (map tokenize (raw_words (lit "hello world") 2)))).
Proof. apply (raw_word_token_counts (lit "hello world") 2 1 true (lit "hello")). lia. Defined.

(** ** Selecting from a selection *)

Lemma sorted_desc_fixed items :
  StronglySorted count_ge items -> sorted_desc items = items.
Proof.
  induction 1 as [|x l Hl IH Hx]; [done|].
  simpl. rewrite IH. destruct Hx as [|y l' Hy _]; [done|].
  simpl. unfold count_ge in Hy. destruct (Z.ltb_spec x.2 y.2); [lia|done].
Qed.

Lemma most_common_sorted freq n : StronglySorted count_ge (most_common freq n).
Proof.
  unfold most_common. pose proof (sorted_desc_sorted freq) as Hs.
  rewrite <- (take_drop (Z.to_nat n) (sorted_desc freq)) in Hs.
  by apply StronglySorted_app_1_l in Hs.
Qed.

(** Asking for at least as many entries as the table has returns all of
    them: the result is a rearrangement of the table. *)
Theorem most_common_all (freq : Counter) (n : Z) :
  len freq <= n -> most_common freq n ≡ₚ freq.
Proof.
  intros Hn. unfold most_common. rewrite take_ge.
  - apply sorted_desc_perm.
  - rewrite sorted_desc_length. unfold len in Hn. lia.
Qed.

Lemma most_common_all_witness :
  most_common [(lit "b", 1); (lit "a", 2)] 5 ≡ₚ [(lit "b", 1); (lit "a", 2)].
Proof. apply (most_common_all [(lit "b", 1); (lit "a", 2)] 5). vm_compute. discriminate. Defined.

(** Selecting again from a selection, with a bound that is not smaller,
    returns the selection unchanged. *)
Theorem most_common_again (freq : Counter) (n m : Z) :
  n <= m -> most_common (most_common freq n) m = most_common freq n.
Proof.
  intros Hnm. unfold most_common at 1.
  rewrite sorted_desc_fixed by apply most_common_sorted.
  apply take_ge. unfold most_common. rewrite length_take. lia.
Qed.

Lemma most_common_again_witness :
  most_common (most_common [(lit "b", 1); (lit "a", 2); (lit "c", 1)] 2) 3 =
  most_common [(lit "b", 1); (lit "a", 2); (lit "c", 1)] 2.
Proof.
  apply (most_common_again [(lit "b", 1); (lit "a", 2); (lit "c", 1)] 2 3). lia.
Defined.

(** ** The tally of the copies *)

Lemma count_fold {path} (results : list (copy_result path)) (acc : Z * Z) :
  (foldl count_step acc results).1 + (foldl count_step acc results).2 =
    acc.1 + acc.2 + len results /\
  (foldl count_step acc results).2 = acc.2 + len (List.filter is_error results).
Proof.
  revert acc. induction results as [|res results IH]; intros acc.
  - unfold len. simpl. lia.
  - cbn [foldl]. destruct (IH (count_step acc res)) as [H1 H2].
    rewrite H1, H2. unfold len. destruct res; simpl; lia.
Qed.

(** The counts returned by [read_folder]: [ok + err] is the number of files
    found, [err] is the number of results that are [None] or an exception,
    and the exit status is 0 exactly when there is no such result. *)
Theorem count_results_total {path} (results : list (copy_result path)) :
  (count_results results).1 + (count_results results).2 = len results /\
  (count_results results).2 = len (List.filter is_error results) /\
  (exit_status (count_results results) = 0 <->
   Forall (fun res => is_error res = false) results).
Proof.
  unfold count_results. destruct (count_fold results (0, 0)) as [H1 H2].
  simpl in *. split; [done|]. split; [done|].
  unfold exit_status. rewrite H2. clear.
  induction results as [|res results IH].
  - simpl. split; [constructor|done].
  - simpl. destruct (is_error res) eqn:E.
    + unfold len. simpl. split; [|intros H; inv H; congruence].
      destruct (Z.eqb_spec (Z.of_nat (S (length (List.filter is_error results)))) 0);
        [lia|done].
    + rewrite IH. split; [by constructor|]. by intros H; inv H.
Qed.
